(** * vue-component-docgen: the rendering pipeline of [src/index.js]

    A shallow embedding of the documentation generator: the type
    formatter, the HTML escaper, the two page renderers, configuration
    loading and the main loop with its index page, followed by the
    properties stated about them.

    JavaScript strings are embedded as [string] (UTF-8 bytes; every
    pattern the program replaces or compares is ASCII, so bytewise and
    code-unit-wise processing agree).  Exceptions are an explicit
    [result]; the console and the file store are an explicit [World]. *)

From Stdlib Require Import String Ascii List Bool Arith Lia DecimalString.
From stdpp Require Import base option gmap strings list.

Set Warnings "-register-all".
Open Scope string_scope.

(* ===================================================================== *)
(** ** Strings *)
(* ===================================================================== *)

Module Str.

Definition chr (n : nat) : string := String (ascii_of_nat n) EmptyString.

(** The double quote, the line feed, the backtick and the backslash. *)
Definition dq : string := chr 34.
Definition nl : string := chr 10.
Definition bt : string := "`".
Definition bs : string := "\".

(** [String(n)] for a non-negative integer. *)
Definition ofNat (n : nat) : string := NilZero.string_of_uint (Nat.to_uint n).

(** [arr.join(sep)] on an array of strings. *)
Definition join (sep : string) (l : list string) : string := String.concat sep l.

(** [s.replace(/c/g, r)] for a pattern that is one literal character. *)
Fixpoint replaceAll (c : ascii) (r : string) (s : string) : string :=
  match s with
  | EmptyString => EmptyString
  | String a s' =>
      if Ascii.eqb a c then r +:+ replaceAll c r s'
      else String a (replaceAll c r s')
  end.

(** [p] occurs in [s] as a contiguous substring. *)
Definition contains (p s : string) : Prop := ∃ a b, s = a +:+ p +:+ b.

(** The character [c] occurs in [s]. *)
Fixpoint has (c : ascii) (s : string) : bool :=
  match s with
  | EmptyString => false
  | String a s' => Ascii.eqb a c || has c s'
  end.

End Str.

Import Str.

(* ===================================================================== *)
(** ** Exceptions *)
(* ===================================================================== *)

(** A computation either returns or throws an [Error] with a message. *)
Inductive result (A : Type) : Type :=
  | Ok (a : A)
  | Throw (message : string).
Arguments Ok {A} a.
Arguments Throw {A} message.

#[global] Instance result_ret : MRet result := fun _ a => Ok a.
#[global] Instance result_bind : MBind result := fun _ _ f m =>
  match m with
  | Ok a => f a
  | Throw e => Throw e
  end.

Definition completes {A} (r : result A) : Prop := ∃ a, r = Ok a.
Definition throws {A} (r : result A) : Prop := ∃ e, r = Throw e.

(** The message V8 attaches to a property read on [undefined]. *)
Definition cannotReadUndefined (prop : string) : string :=
  "Cannot read properties of undefined (reading '" +:+ prop +:+ "')".

(** The message V8 attaches to a property read on [null]. *)
Definition cannotReadNull (prop : string) : string :=
  "Cannot read properties of null (reading '" +:+ prop +:+ "')".

(* ===================================================================== *)
(** ** Optional fields and truthiness *)
(* ===================================================================== *)

(** An optional string field: [None] is a missing property
    ([undefined]); the empty string is the other falsy case. *)
Definition truthy (o : option string) : bool :=
  match o with
  | Some s => negb (String.eqb s "")
  | None => false
  end.

(** [o || d] *)
Definition orElse (o : option string) (d : string) : string :=
  match o with
  | Some s => if String.eqb s "" then d else s
  | None => d
  end.

(** [`${o}`]: a missing property interpolates as the text undefined. *)
Definition tpl (o : option string) : string :=
  match o with
  | Some s => s
  | None => "undefined"
  end.

(** [l && l.length > 0] for an optional array. *)
Definition nonEmpty {A} (o : option (list A)) : bool :=
  match o with
  | Some (_ :: _) => true
  | _ => false
  end.

(** The elements a guarded [forEach] visits. *)
Definition items {A} (o : option (list A)) : list A := default [] o.

(** [arr.forEach((x, index) => { acc += f(x, index) })], from [index = i]. *)
Fixpoint appendEach {A} (f : A → nat → string) (l : list A) (i : nat)
    (acc : string) : string :=
  match l with
  | [] => acc
  | x :: l' => appendEach f l' (S i) (acc +:+ f x i)
  end.

(** The same loop when the body may throw: the first exception leaves the
    loop and the function. *)
Fixpoint appendEachM {A} (f : A → result string) (l : list A)
    (acc : string) : result string :=
  match l with
  | [] => Ok acc
  | x :: l' =>
      match f x with
      | Ok s => appendEachM f l' (acc +:+ s)
      | Throw e => Throw e
      end
  end.

(* ===================================================================== *)
(** ** The component document *)
(* ===================================================================== *)

(** Modelled from the spec: the record the external extraction service
    returns (its declaration is not part of the sources).  Section 3 of
    the specification lists the fields; a field is optional here exactly
    where the specification calls it optional or where the program tests
    for it before use.  Object-valued mappings ([props], [slots]) are kept
    as their own enumerable entries in enumeration order. *)

Inductive TypeDescriptor : Type :=
  MkType (name : option string) (elements : option (list TypeDescriptor)).

Definition type_name (t : TypeDescriptor) : option string :=
  let 'MkType n _ := t in n.
Definition type_elements (t : TypeDescriptor) : option (list TypeDescriptor) :=
  let 'MkType _ e := t in e.

Record Example := {
  ex_title : option string;
  ex_content : option string }.

Record Tags := { examples : option (list Example) }.

Record DefaultValue := { dv_value : string }.

Record PropDescriptor := {
  prop_name : string;
  prop_type : option TypeDescriptor;
  prop_defaultValue : option DefaultValue;
  prop_description : option string }.

Record Tag := {
  tag_title : string;
  tag_description : option string }.

Record ExposeDescriptor := {
  expose_name : string;
  expose_tags : option (list Tag);
  expose_description : option string }.

Record EventType := { names : option (list string) }.

Record EventProperty := {
  param_name : option string;
  param_type : option EventType;
  param_description : option string }.

Record EventDescriptor := {
  event_name : option string;
  event_properties : option (list EventProperty);
  event_description : option string }.

Record SlotDescriptor := {
  slot_name : string;
  slot_description : option string }.

Record ComponentDoc := {
  displayName : option string;
  description : option string;
  tags : option Tags;
  props : option (list (string * PropDescriptor));
  expose : option (list ExposeDescriptor);
  events : option (list EventDescriptor);
  slots : option (list (string * SlotDescriptor)) }.

(** [Object.values(o)] and the guard [o && Object.keys(o).length > 0]. *)
Definition Object_values {A} (o : list (string * A)) : list A := map snd o.
Definition Object_keys {A} (o : list (string * A)) : list string := map fst o.

Definition hasKeys {A} (o : option (list (string * A))) : bool :=
  match o with
  | Some o' => negb (Nat.eqb (length (Object_keys o')) 0)
  | None => false
  end.

(** [docData.tags && docData.tags.examples], as the array the loop sees. *)
Definition doc_examples (docData : ComponentDoc) : option (list Example) :=
  match tags docData with
  | Some t => examples t
  | None => None
  end.

(* ===================================================================== *)
(** ** formatType, getExposeType, escapeHtml, formatEventParams *)
(* ===================================================================== *)

(** The separator of a union: [' \\| '] in Markdown, [' | '] in HTML. *)
Definition unionSeparator (isMarkdown : bool) : string :=
  if isMarkdown then " \| " else " | ".

(** [formatType] on a descriptor that is an object. *)
Fixpoint formatTypeDescriptor (type : TypeDescriptor) (isMarkdown : bool) : string :=
  match type with
  | MkType name elements =>
      match elements with
      | Some (e :: es) =>
          if bool_decide (name = Some "union") then
            join (unionSeparator isMarkdown)
                 (map (fun element => formatTypeDescriptor element isMarkdown) (e :: es))
          else orElse name ""
      | _ => orElse name ""
      end
  end.

(** [formatType(type, isMarkdown)]: reading [type.name] throws when the
    argument is [undefined]. *)
Definition formatType (type : option TypeDescriptor) (isMarkdown : bool) : result string :=
  match type with
  | Some t => Ok (formatTypeDescriptor t isMarkdown)
  | None => Throw (cannotReadUndefined "name")
  end.

(** [getExposeType(exposeItem)]: the description of the first tag titled
    type; [None] where JavaScript yields [undefined]. *)
Definition getExposeType (exposeItem : ExposeDescriptor) : option string :=
  match expose_tags exposeItem with
  | None | Some [] => Some "-"
  | Some ts =>
      match List.find (fun tag => String.eqb (tag_title tag) "type") ts with
      | Some typeTag => tag_description typeTag
      | None => Some "-"
      end
  end.

Definition amp : ascii := "&"%char.
Definition lt : ascii := "<"%char.
Definition gt : ascii := ">"%char.
Definition quot : ascii := ascii_of_nat 34.
Definition apos : ascii := "'"%char.

Definition escapeHtml (str : string) : string :=
  replaceAll apos "&#039;"
    (replaceAll quot "&quot;"
      (replaceAll gt "&gt;"
        (replaceAll lt "&lt;"
          (replaceAll amp "&amp;" str)))).

(** One parameter of an event, as [formatEventParams] renders it. *)
Definition formatEventParam (isMarkdown : bool) (prop : EventProperty) : string :=
  let type :=
    match param_type prop with
    | Some {| names := Some (n :: ns) |} => join (unionSeparator isMarkdown) (n :: ns)
    | _ => "-"
    end in
  let typeDisplay :=
    if isMarkdown then bt +:+ type +:+ bt else "<code>" +:+ type +:+ "</code>" in
  let desc :=
    if truthy (param_description prop) then " - " +:+ tpl (param_description prop) else "" in
  tpl (param_name prop) +:+ ": " +:+ typeDisplay +:+ desc.

Definition formatEventParams (properties : option (list EventProperty))
    (isMarkdown : bool) : string :=
  match properties with
  | None | Some [] => "-"
  | Some ps => join (if isMarkdown then "<br>" else ", ") (map (formatEventParam isMarkdown) ps)
  end.

(* ===================================================================== *)
(** ** generateComponentMarkdown *)
(* ===================================================================== *)

(** [example.title || `示例 ${index + 1}`] *)
Definition exampleTitle (example : Example) (index : nat) : string :=
  orElse (ex_title example) ("示例 " +:+ ofNat (index + 1)).

Definition mdExample (example : Example) (index : nat) : string :=
  "### " +:+ exampleTitle example index +:+ nl +:+ nl
  +:+ "```html" +:+ nl
  +:+ orElse (ex_content example) ""
  +:+ nl +:+ "```" +:+ nl +:+ nl.

(** The default-value cell of the Markdown props table. *)
Definition mdDefaultValue (prop : PropDescriptor) : string :=
  match prop_defaultValue prop with
  | Some dv => bt +:+ replaceAll "`"%char (bs +:+ bt) (dv_value dv) +:+ bt
  | None => "-"
  end.

Definition mdProp (prop : PropDescriptor) : result string :=
  formattedType ← formatType (prop_type prop) true;
  let typeDisplay := bt +:+ formattedType +:+ bt in
  let defaultValue := mdDefaultValue prop in
  Ok ("| " +:+ prop_name prop +:+ " | " +:+ typeDisplay +:+ " | " +:+ defaultValue
      +:+ " | " +:+ orElse (prop_description prop) "-" +:+ " |" +:+ nl).

Definition mdExpose (item : ExposeDescriptor) (_ : nat) : string :=
  let type := getExposeType item in
  let typeDisplay := if truthy type then bt +:+ tpl type +:+ bt else "-" in
  "| " +:+ expose_name item +:+ " | " +:+ typeDisplay +:+ " | "
  +:+ orElse (expose_description item) "-" +:+ " |" +:+ nl.

Definition mdEvent (event : EventDescriptor) (_ : nat) : string :=
  let params := formatEventParams (event_properties event) true in
  "| " +:+ orElse (event_name event) "-" +:+ " | " +:+ params +:+ " | "
  +:+ orElse (event_description event) "-" +:+ " |" +:+ nl.

Definition mdSlot (slot : SlotDescriptor) (_ : nat) : string :=
  "| " +:+ slot_name slot +:+ " | " +:+ orElse (slot_description slot) "-" +:+ " |" +:+ nl.

Definition generateComponentMarkdown (docData : ComponentDoc) : result string :=
  let mdContent := "# " +:+ tpl (displayName docData) +:+ nl +:+ nl in
  let mdContent :=
    if truthy (description docData)
    then mdContent +:+ "## 组件描述" +:+ nl +:+ tpl (description docData) +:+ nl +:+ nl
    else mdContent in
  let mdContent :=
    if nonEmpty (doc_examples docData)
    then appendEach mdExample (items (doc_examples docData)) 0
           (mdContent +:+ "## 组件示例" +:+ nl +:+ nl)
    else mdContent in
  mdContent ←
    (if hasKeys (props docData)
     then
       mdContent ← appendEachM mdProp (Object_values (default [] (props docData)))
         (mdContent +:+ "## Props" +:+ nl +:+ nl
          +:+ "| 名称 | 类型 | 默认值 | 描述 |" +:+ nl
          +:+ "|------|------|--------|------|" +:+ nl);
       Ok (mdContent +:+ nl)
     else Ok mdContent);
  let mdContent :=
    if nonEmpty (expose docData)
    then appendEach mdExpose (items (expose docData)) 0
           (mdContent +:+ "## Expose (暴露的方法和属性)" +:+ nl +:+ nl
            +:+ "| 名称 | 类型 | 描述 |" +:+ nl
            +:+ "|------|------|------|" +:+ nl) +:+ nl
    else mdContent in
  let mdContent :=
    if nonEmpty (events docData)
    then appendEach mdEvent (items (events docData)) 0
           (mdContent +:+ "## Events" +:+ nl +:+ nl
            +:+ "| 名称 | 参数 | 描述 |" +:+ nl
            +:+ "|------|------|------|" +:+ nl) +:+ nl
    else mdContent in
  let mdContent :=
    if hasKeys (slots docData)
    then appendEach mdSlot (Object_values (default [] (slots docData))) 0
           (mdContent +:+ "## Slots" +:+ nl +:+ nl
            +:+ "| 名称 | 描述 |" +:+ nl
            +:+ "|------|------|" +:+ nl) +:+ nl
    else mdContent in
  Ok mdContent.

(* ===================================================================== *)
(** ** generateComponentHtml *)
(* ===================================================================== *)

Definition htmlHead (docData : ComponentDoc) (docName componentName : string) : string :=
"<!DOCTYPE html>
<html lang=" +:+ dq +:+ "en" +:+ dq +:+ ">
<head>
    <meta charset=" +:+ dq +:+ "UTF-8" +:+ dq +:+ ">
    <meta name=" +:+ dq +:+ "viewport" +:+ dq +:+ " content=" +:+ dq +:+ "width=device-width, initial-scale=1.0" +:+ dq +:+ ">
    <title>" +:+ componentName +:+ " - " +:+ docName +:+ "</title>
    <style>
        body { font-family: Arial, sans-serif; max-width: 800px; margin: 0 auto; padding: 20px; }
        h1 { color: #2c3e50; border-bottom: 2px solid #3498db; padding-bottom: 10px; }
        h2 { color: #3498db; margin-top: 30px; }
        h3 { color: #2c3e50; margin-top: 20px; }
        .description { font-size: 1.1em; line-height: 1.6; margin: 20px 0; padding: 15px; background-color: #f8f9fa; border-left: 4px solid #3498db; }
        .example-container { margin: 20px 0; }
        .example-title { font-weight: bold; margin-bottom: 10px; }
        .code-block { font-family: monospace; background-color: #f8f9fa; padding: 15px; border-radius: 4px; overflow-x: auto; font-size: 0.9em; }
        table { width: 100%; border-collapse: collapse; margin: 16px 0; }
        td, th { padding: 12px 8px; text-align: left; border: 1px solid #ddd; }
        th { background-color: #f2f2f2; font-weight: bold; }
        tr:nth-child(even) { background-color: #f9f9f9; }
        .back-link { margin-bottom: 20px; display: inline-block; }
        code { background-color: #f0f0f0; padding: 2px 4px; border-radius: 3px; }
        .param-item { margin-bottom: 4px; }
        .param-item:last-child { margin-bottom: 0; }
    </style>
</head>
<body>
    <div class=" +:+ dq +:+ "back-link" +:+ dq +:+ "><a href=" +:+ dq +:+ "index.html" +:+ dq +:+ ">← 返回组件列表</a></div>
    <h1>" +:+ tpl (displayName docData) +:+ "</h1>".

Definition htmlDescription (d : string) : string :=
  "<div class=" +:+ dq +:+ "description" +:+ dq +:+ ">" +:+ d +:+ "</div>".

(** The code block of one example: the content goes through [escapeHtml]. *)
Definition htmlCodeBlock (example : Example) : string :=
  "<pre class=" +:+ dq +:+ "code-block" +:+ dq +:+ "><code>"
  +:+ escapeHtml (orElse (ex_content example) "") +:+ "</code></pre>".

Definition htmlExample (example : Example) (index : nat) : string :=
  let title := exampleTitle example index in
"
            <div class=" +:+ dq +:+ "example-container" +:+ dq +:+ ">
                <h3 class=" +:+ dq +:+ "example-title" +:+ dq +:+ ">" +:+ title +:+ "</h3>
                " +:+ htmlCodeBlock example +:+ "
            </div>".

Definition htmlPropsHead : string :=
"
        <h2>Props</h2>
        <table>
            <tr>
                <th>名称</th>
                <th>类型</th>
                <th>默认值</th>
                <th>描述</th>
            </tr>".

Definition htmlCell (s : string) : string := "<td>" +:+ s +:+ "</td>".

Definition htmlDefaultValue (prop : PropDescriptor) : string :=
  match prop_defaultValue prop with
  | Some dv => "<code>" +:+ dv_value dv +:+ "</code>"
  | None => "-"
  end.

Definition htmlProp (prop : PropDescriptor) : result string :=
  formattedType ← formatType (prop_type prop) false;
  Ok ("
            <tr>
                " +:+ htmlCell (prop_name prop) +:+ "
                <td><code>" +:+ formattedType +:+ "</code></td>
                " +:+ htmlCell (htmlDefaultValue prop) +:+ "
                " +:+ htmlCell (orElse (prop_description prop) "-") +:+ "
            </tr>").

Definition htmlExposeHead : string :=
"
        <h2>Expose (暴露的方法和属性)</h2>
        <table>
            <tr>
                <th>名称</th>
                <th>类型</th>
                <th>描述</th>
            </tr>".

Definition htmlExpose (item : ExposeDescriptor) (_ : nat) : string :=
  let type := getExposeType item in
"
            <tr>
                " +:+ htmlCell (expose_name item) +:+ "
                " +:+ htmlCell (if truthy type then "<code>" +:+ tpl type +:+ "</code>" else "-") +:+ "
                " +:+ htmlCell (orElse (expose_description item) "-") +:+ "
            </tr>".

Definition htmlEventsHead : string :=
"
        <h2>Events</h2>
        <table>
            <tr>
                <th>名称</th>
                <th>参数</th>
                <th>描述</th>
            </tr>".

Definition htmlEvent (event : EventDescriptor) (_ : nat) : string :=
  let params := formatEventParams (event_properties event) false in
"
            <tr>
                " +:+ htmlCell (orElse (event_name event) "-") +:+ "
                " +:+ htmlCell params +:+ "
                " +:+ htmlCell (orElse (event_description event) "-") +:+ "
            </tr>".

Definition htmlSlotsHead : string :=
"
        <h2>Slots</h2>
        <table>
            <tr>
                <th>名称</th>
                <th>描述</th>
            </tr>".

Definition htmlSlot (slot : SlotDescriptor) (_ : nat) : string :=
"
            <tr>
                " +:+ htmlCell (slot_name slot) +:+ "
                " +:+ htmlCell (orElse (slot_description slot) "-") +:+ "
            </tr>".

Definition htmlFoot : string :=
"
</body>
</html>".

Definition generateComponentHtml (docData : ComponentDoc)
    (docName componentName : string) : result string :=
  let htmlContent := htmlHead docData docName componentName in
  let htmlContent :=
    if truthy (description docData)
    then htmlContent +:+ htmlDescription (tpl (description docData))
    else htmlContent in
  let htmlContent :=
    if nonEmpty (doc_examples docData)
    then appendEach htmlExample (items (doc_examples docData)) 0
           (htmlContent +:+ "<h2>组件示例</h2>")
    else htmlContent in
  htmlContent ←
    (if hasKeys (props docData)
     then
       htmlContent ← appendEachM htmlProp (Object_values (default [] (props docData)))
         (htmlContent +:+ htmlPropsHead);
       Ok (htmlContent +:+ "</table>")
     else Ok htmlContent);
  let htmlContent :=
    if nonEmpty (expose docData)
    then appendEach htmlExpose (items (expose docData)) 0
           (htmlContent +:+ htmlExposeHead) +:+ "</table>"
    else htmlContent in
  let htmlContent :=
    if nonEmpty (events docData)
    then appendEach htmlEvent (items (events docData)) 0
           (htmlContent +:+ htmlEventsHead) +:+ "</table>"
    else htmlContent in
  let htmlContent :=
    if hasKeys (slots docData)
    then appendEach htmlSlot (Object_values (default [] (slots docData))) 0
           (htmlContent +:+ htmlSlotsHead) +:+ "</table>"
    else htmlContent in
  Ok (htmlContent +:+ htmlFoot).

(* ===================================================================== *)
(** ** Configuration values *)
(* ===================================================================== *)

(** What [JSON.parse] can return, plus [undefined] for a missing property.
    A number is kept as the text [String(n)] gives for it: the program
    never computes with a configuration number, it only tests it for
    truthiness and interpolates it.  An object is the finite map of its
    own properties. *)
Inductive value : Type :=
  | VUndefined
  | VNull
  | VBool (b : bool)
  | VNum (repr : string)
  | VStr (s : string)
  | VArr (elems : list value)
  | VObj (fields : gmap string value).

(** [!!v] *)
Definition isTruthy (v : value) : bool :=
  match v with
  | VUndefined | VNull => false
  | VBool b => b
  | VNum r => negb (String.eqb r "0" || String.eqb r "NaN")
  | VStr s => negb (String.eqb s "")
  | VArr _ | VObj _ => true
  end.

(** [`${v}`] *)
Fixpoint toString (v : value) : string :=
  match v with
  | VUndefined => "undefined"
  | VNull => "null"
  | VBool b => if b then "true" else "false"
  | VNum r => r
  | VStr s => s
  | VArr l =>
      join ","
        (map (fun x => match x with
                       | VUndefined | VNull => ""
                       | _ => toString x
                       end) l)
  | VObj _ => "[object Object]"
  end.

(** The entries [0 ↦ x0, 1 ↦ x1, ...] of an array-like, from index [i]. *)
Fixpoint indexed (i : nat) (l : list value) : gmap string value :=
  match l with
  | [] => ∅
  | x :: l' => <[ofNat i := x]> (indexed (S i) l')
  end.

Fixpoint characters (s : string) : list value :=
  match s with
  | EmptyString => []
  | String c s' => VStr (String c EmptyString) :: characters s'
  end.

(** The own enumerable properties of a value, which is what
    [Object.assign] and object spread copy.  A string contributes its
    indexed characters (a byte each in this embedding, which coincides
    with JavaScript on ASCII text); the other primitives contribute
    nothing. *)
Definition ownEntries (v : value) : gmap string value :=
  match v with
  | VObj m => m
  | VArr l => indexed 0 l
  | VStr s => indexed 0 (characters s)
  | _ => ∅
  end.

(** [v[key]] for the keys the program reads ([customContent], [html],
    [md]), none of which is an inherited property of any value. *)
Definition getProp (v : value) (key : string) : result value :=
  match v with
  | VUndefined => Throw (cannotReadUndefined key)
  | VNull => Throw (cannotReadNull key)
  | _ => Ok (default VUndefined (ownEntries v !! key))
  end.

(** [Object.assign(target, source)]: every own property of the source is
    set on the target.  Setting [__proto__] runs the inherited setter and
    creates no own property. *)
Definition Object_assign (target : gmap string value) (source : value) : gmap string value :=
  delete "__proto__" (ownEntries source) ∪ target.

(** [{...a, ...b}] *)
Definition spread2 (a b : value) : gmap string value :=
  ownEntries b ∪ ownEntries a.

(** A property of the configuration object. *)
Definition field (config : gmap string value) (key : string) : value :=
  default VUndefined (config !! key).

(** [['html', 'md'].includes(v)] *)
Definition isDocType (v : value) : bool :=
  match v with
  | VStr s => String.eqb s "html" || String.eqb s "md"
  | _ => false
  end.

(** [v === 'md'] *)
Definition isMd (v : value) : bool :=
  match v with
  | VStr s => String.eqb s "md"
  | _ => false
  end.

(** The built-in defaults. *)
Definition defaultCustomContent : gmap string value :=
  <["md" := VStr ""]> (<["html" := VStr ""]> ∅).

Definition defaultConfig : gmap string value :=
  <["outDir" := VStr "dist/component-doc"]>
  (<["componentsDir" := VStr "src/components"]>
  (<["docName" := VStr "Vue Component API Documentation"]>
  (<["docType" := VStr "html"]>
  (<["docDescription" := VStr ""]>
  (<["customContent" := VObj defaultCustomContent]> ∅))))).

(* ===================================================================== *)
(** ** The world: file store and console *)
(* ===================================================================== *)

Inductive Level : Type := LevelLog | LevelWarn | LevelError.

(** What the run does to its environment, in order. *)
Inductive Effect : Type :=
  | Console (level : Level) (args : list value)
  | WriteFile (path content : string).

(** The readable regular files by resolved path, and the effects so far.
    Directories are outside the store: [ensureDir] has created the output
    directory before anything is written, and a write to it succeeds. *)
Record World := {
  files : gmap string string;
  trace : list Effect }.

(** A step of the run: it changes the world and returns or throws.  The
    changes made before an exception stay. *)
Definition M (A : Type) : Type := World → result A * World.

Definition ret {A} (a : A) : M A := fun w => (Ok a, w).
Definition raise {A} (e : string) : M A := fun w => (Throw e, w).
Definition bind {A B} (m : M A) (k : A → M B) : M B := fun w =>
  match m w with
  | (Ok a, w') => k a w'
  | (Throw e, w') => (Throw e, w')
  end.
Definition lift {A} (r : result A) : M A := fun w => (r, w).

Definition catch {A} (m : M A) (handler : string → M A) : M A := fun w =>
  match m w with
  | (Ok a, w') => (Ok a, w')
  | (Throw e, w') => handler e w'
  end.

Notation "'let!' x := m 'in' k" := (bind m (fun x => k))
  (at level 10, x name, m at level 100, k at level 200).
Notation "'do!' m 'in' k" := (bind m (fun _ => k))
  (at level 10, m at level 100, k at level 200).

Definition console (level : Level) (args : list value) : M unit := fun w =>
  (Ok tt, {| files := files w; trace := (trace w ++ [Console level args])%list |}).

Definition console_log (s : string) : M unit := console LevelLog [VStr s].

(** [fsPromises.writeFile(path, content, 'utf8')] *)
Definition writeFile (path content : string) : M unit := fun w =>
  (Ok tt, {| files := <[path := content]> (files w);
             trace := (trace w ++ [WriteFile path content])%list |}).

(** [fs.existsSync(path)] followed by [fs.readFileSync(path, 'utf8')], and
    likewise [fsPromises.access] followed by [fsPromises.readFile]. *)
Definition readIfExists (path : string) : M (option string) := fun w =>
  (Ok (files w !! path), w).

(** The paths written, in order. *)
Fixpoint writes (t : list Effect) : list (string * string) :=
  match t with
  | [] => []
  | WriteFile p c :: t' => (p, c) :: writes t'
  | Console _ _ :: t' => writes t'
  end.

(* ===================================================================== *)
(** ** The run *)
(* ===================================================================== *)

(** One line of the index: [{ name, description }]. *)
Record IndexEntry := {
  entry_name : string;
  entry_description : string }.

Definition mdIndexEntry (component : IndexEntry) (_ : nat) : string :=
  let line := "- [" +:+ entry_name component +:+ "](" +:+ entry_name component +:+ ".md)" +:+ nl in
  if String.eqb (entry_description component) ""
  then line +:+ nl
  else line +:+ "  " +:+ entry_description component +:+ nl +:+ nl.

Definition mdIndex (config : gmap string value) (customContent : string)
    (components : list IndexEntry) : string :=
  let indexMdContent := "# " +:+ toString (field config "docName") +:+ nl +:+ nl in
  let indexMdContent :=
    if isTruthy (field config "docDescription")
    then indexMdContent +:+ toString (field config "docDescription") +:+ nl +:+ nl
    else indexMdContent in
  let indexMdContent :=
    if String.eqb customContent ""
    then indexMdContent
    else indexMdContent +:+ customContent +:+ nl +:+ nl in
  let indexMdContent := indexMdContent +:+ "## 组件列表" +:+ nl +:+ nl in
  appendEach mdIndexEntry components 0 indexMdContent.

Definition htmlIndexEntry (component : IndexEntry) : string :=
  let item := "<li class=" +:+ dq +:+ "component-item" +:+ dq +:+ ">" in
  let item := item +:+ "<a href=" +:+ dq +:+ entry_name component +:+ ".html" +:+ dq +:+ " class=" +:+ dq +:+ "component-link" +:+ dq +:+ ">" +:+ entry_name component +:+ "</a>" in
  let item :=
    if String.eqb (entry_description component) ""
    then item
    else item +:+ "<p class=" +:+ dq +:+ "component-desc" +:+ dq +:+ ">" +:+ entry_description component +:+ "</p>" in
  item +:+ "</li>".

Definition htmlIndex (config : gmap string value) (customContent : string)
    (components : list IndexEntry) : string :=
  let componentsList := join nl (map htmlIndexEntry components) in
  let docDescriptionSection :=
    if isTruthy (field config "docDescription")
    then "<p class=" +:+ dq +:+ "doc-description" +:+ dq +:+ ">" +:+ toString (field config "docDescription") +:+ "</p>"
    else "" in
  let customContentSection := customContent in
"<!DOCTYPE html>
<html lang=" +:+ dq +:+ "en" +:+ dq +:+ ">
<head>
    <meta charset=" +:+ dq +:+ "UTF-8" +:+ dq +:+ ">
    <meta name=" +:+ dq +:+ "viewport" +:+ dq +:+ " content=" +:+ dq +:+ "width=device-width, initial-scale=1.0" +:+ dq +:+ ">
    <title>" +:+ toString (field config "docName") +:+ "</title>
    <style>
        body { font-family: Arial, sans-serif; max-width: 800px; margin: 0 auto; padding: 20px; }
        h1 { color: #2c3e50; }
        h2 { color: #3498db; }
        .components-list { list-style: none; padding: 0; }
        .component-item { margin: 20px 0; padding: 15px; border-radius: 4px; background-color: #f9f9f9; }
        .component-link { color: #3498db; text-decoration: none; font-size: 1.2em; font-weight: bold; }
        .component-link:hover { text-decoration: underline; }
        .component-desc { margin: 8px 0 0 0; color: #555; line-height: 1.5; }
        .doc-description { font-size: 1.1em; line-height: 1.6; color: #333; margin: 10px 0 20px 0; }
    </style>
</head>
<body>
    <h1>" +:+ toString (field config "docName") +:+ "</h1>
    
    " +:+ docDescriptionSection +:+ "
    
    " +:+ customContentSection +:+ "
    
    <h2>组件列表</h2>
    <ul class=" +:+ dq +:+ "components-list" +:+ dq +:+ ">
        " +:+ componentsList +:+ "
    </ul>
</body>
</html>".

(* ===================================================================== *)
(** ** findVueFiles *)
(* ===================================================================== *)

Module Walk.
Section Walk.

(** [path.resolve] and [path.extname]. *)
Variable path_resolve : list value → result string.
Variable path_extname : string → string.

(** An entry [readdir] yields with [withFileTypes]: a regular file, a
    directory together with what [readdir] gives for it in turn (its
    entries, or the error it rejects with), or anything else (a link, a
    socket), for which both [isDirectory()] and [isFile()] are false. *)
Inductive Dirent : Type :=
  | FileEntry (name : string)
  | DirEntry (name : string) (listing : result (list Dirent))
  | OtherEntry (name : string).

Definition dirent_name (entry : Dirent) : string :=
  match entry with
  | FileEntry name | DirEntry name _ | OtherEntry name => name
  end.

(** The body of the loop for one entry, on the list [results]; a
    directory runs the whole function on its own listing. *)
Fixpoint findVueFilesEntry (dir : string) (entry : Dirent) (results : list string)
    {struct entry} : result (list string) :=
  match path_resolve [VStr dir; VStr (dirent_name entry)] with
  | Throw e => Throw e
  | Ok fullPath =>
      match entry with
      | DirEntry _ (Throw e) => Throw e
      | DirEntry _ (Ok entries) =>
          match
            (fix loop (entries : list Dirent) (found : list string) : result (list string) :=
               match entries with
               | [] => Ok found
               | entry' :: rest =>
                   match findVueFilesEntry fullPath entry' found with
                   | Ok found' => loop rest found'
                   | Throw e => Throw e
                   end
               end) entries []
          with
          | Ok found => Ok (results ++ found)%list
          | Throw e => Throw e
          end
      | FileEntry name =>
          if String.eqb (path_extname name) ".vue"
          then Ok (results ++ [fullPath])%list
          else Ok results
      | OtherEntry _ => Ok results
      end
  end.

(** The loop over the entries of a directory. *)
Fixpoint findVueFilesLoop (dir : string) (entries : list Dirent) (results : list string)
    : result (list string) :=
  match entries with
  | [] => Ok results
  | entry :: rest =>
      match findVueFilesEntry dir entry results with
      | Ok results' => findVueFilesLoop dir rest results'
      | Throw e => Throw e
      end
  end.

(** [findVueFiles(dir)], given what [readdir(dir)] yields. *)
Definition findVueFiles (dir : string) (listing : result (list Dirent))
    : result (list string) :=
  match listing with
  | Ok entries => findVueFilesLoop dir entries []
  | Throw e => Throw e
  end.

(** The [.vue] files below an entry, and below a listing. *)
Fixpoint vueFileCount (entry : Dirent) : nat :=
  match entry with
  | FileEntry name => if String.eqb (path_extname name) ".vue" then 1 else 0
  | DirEntry _ (Ok entries) => list_sum (map vueFileCount entries)
  | DirEntry _ (Throw _) => 0
  | OtherEntry _ => 0
  end.

(** Every directory at or below the entry can be read. *)
Fixpoint readableEntry (entry : Dirent) : bool :=
  match entry with
  | DirEntry _ (Ok entries) => forallb readableEntry entries
  | DirEntry _ (Throw _) => false
  | FileEntry _ | OtherEntry _ => true
  end.

Definition readable (listing : result (list Dirent)) : bool :=
  match listing with
  | Ok entries => forallb readableEntry entries
  | Throw _ => false
  end.

(** [Found dir entry p]: [p] is the resolved path of a regular file with
    extension [.vue] that is [entry] itself, in directory [dir], or lies
    below it. *)
Inductive Found : string → Dirent → string → Prop :=
  | Found_file (dir name p : string) :
      path_extname name = ".vue" →
      path_resolve [VStr dir; VStr name] = Ok p →
      Found dir (FileEntry name) p
  | Found_below (dir name fullPath : string) (entries : list Dirent)
      (entry : Dirent) (p : string) :
      path_resolve [VStr dir; VStr name] = Ok fullPath →
      entry ∈ entries →
      Found fullPath entry p →
      Found dir (DirEntry name (Ok entries)) p.

End Walk.
End Walk.

Section Run.

(** The environment of a run.  [configFile] is the resolved path of
    [component.doc.json]; [JSON_parse], [path_resolve] and [parse] are the
    library functions of the same names, which return or throw;
    [invalidArgType] is the text of the error a file-system call raises
    for an argument that is not a path; [findVueFiles dir] is what the
    recursive walk of that name returns for the directory tree at hand, in
    the order the walk yields the files (the tree itself is not part of
    the store, and the walk throws when the directory cannot be read). *)
Variable configFile : string.
Variable JSON_parse : string → result value.
Variable path_resolve : list value → result string.
Variable invalidArgType : string → value → string.
Variable findVueFiles : string → result (list string).
Variable parse : string → result ComponentDoc.

(** [loadConfig()], on the configuration object it updates in place. *)
Definition loadConfig (config : gmap string value) : M (gmap string value) :=
  let! text := readIfExists configFile in
  match text with
  | None => ret config
  | Some text =>
      let failed (message : string) (config : gmap string value) :=
        do! console LevelError [VStr "加载配置文件失败:"; VStr message] in ret config in
      match JSON_parse text with
      | Throw message => failed message config
      | Ok customConfig =>
          let config := Object_assign config customConfig in
          match getProp customConfig "customContent" with
          | Throw message => failed message config
          | Ok customContent =>
              let config :=
                if isTruthy customContent
                then <["customContent" :=
                         VObj (spread2 (field config "customContent") customContent)]> config
                else config in
              if isDocType (field config "docType") then ret config
              else
                do! console LevelWarn
                      [VStr ("无效的docType配置: " +:+ toString (field config "docType")
                             +:+ "，将使用默认值html")] in
                ret (<["docType" := VStr "html"]> config)
          end
      end
  end.

(** [readCustomContent()] *)
Definition readCustomContent (config : gmap string value) : M string :=
  catch
    (let! contentPath :=
       lift (getProp (field config "customContent") (toString (field config "docType"))) in
     if isTruthy contentPath then
       let! fullPath := lift (path_resolve [contentPath]) in
       let! content := readIfExists fullPath in
       match content with
       | Some text => ret text
       | None => do! console_log ("自定义内容文件不存在: " +:+ fullPath) in ret ""
       end
     else ret "")
    (fun message =>
       do! console LevelError [VStr "读取自定义内容失败:"; VStr message] in ret "").

(** [ensureDir(dir)]: both [access] and [mkdir] reject a directory that
    is not a path. *)
Definition ensureDir (dir : value) : M unit :=
  match dir with
  | VStr _ => ret tt
  | _ => raise (invalidArgType "path" dir)
  end.

(** [getComponentDoc(filePath)]: [None] is the [null] it returns. *)
Definition getComponentDoc (filePath : string) : M (option ComponentDoc) :=
  match parse filePath with
  | Ok docData => ret (Some docData)
  | Throw message =>
      do! console LevelError [VStr ("解析组件" +:+ filePath +:+ "失败:"); VStr message] in
      ret None
  end.

(** The page of one document: its path and its content. *)
Definition renderPage (config : gmap string value) (docData : ComponentDoc)
    (componentName : string) : result (string * string) :=
  if isMd (field config "docType") then
    outputFile ← path_resolve [field config "outDir"; VStr (componentName +:+ ".md")];
    content ← generateComponentMarkdown docData;
    Ok (outputFile, content)
  else
    outputFile ← path_resolve [field config "outDir"; VStr (componentName +:+ ".html")];
    content ← generateComponentHtml docData (toString (field config "docName")) componentName;
    Ok (outputFile, content).

(** The body of the loop over the files, on the list [components]. *)
Definition processFile (config : gmap string value) (file : string)
    (components : list IndexEntry) : M (list IndexEntry) :=
  let! docData := getComponentDoc file in
  match docData with
  | Some d =>
      if truthy (displayName d) then
        let componentName := tpl (displayName d) in
        let components :=
          (components ++ [{| entry_name := componentName;
                             entry_description := orElse (description d) "" |}])%list in
        let! page := lift (renderPage config d componentName) in
        do! writeFile (fst page) (snd page) in
        do! console_log ("已生成组件文档: " +:+ fst page) in
        ret components
      else
        do! console_log ("跳过无效组件文件: " +:+ file) in ret components
  | None =>
      do! console_log ("跳过无效组件文件: " +:+ file) in ret components
  end.

Fixpoint processFiles (config : gmap string value) (vueFiles : list string)
    (components : list IndexEntry) : M (list IndexEntry) :=
  match vueFiles with
  | [] => ret components
  | file :: rest =>
      let! components := processFile config file components in
      processFiles config rest components
  end.

(** The index page, written after the loop. *)
Definition writeIndex (config : gmap string value) (customContent : string)
    (components : list IndexEntry) : M unit :=
  if isMd (field config "docType") then
    let indexMdContent := mdIndex config customContent components in
    let! indexMdPath := lift (path_resolve [field config "outDir"; VStr "index.md"]) in
    do! writeFile indexMdPath indexMdContent in
    console_log ("已生成索引文件: " +:+ indexMdPath)
  else
    let indexHtmlContent := htmlIndex config customContent components in
    let! indexHtmlPath := lift (path_resolve [field config "outDir"; VStr "index.html"]) in
    do! writeFile indexHtmlPath indexHtmlContent in
    console_log ("已生成HTML索引文件: " +:+ indexHtmlPath).

(** Everything after the configuration is loaded. *)
Definition generate (config : gmap string value) : M unit :=
  do! console LevelLog [VStr "使用配置:"; VObj config] in
  do! ensureDir (field config "outDir") in
  let! componentsDir := lift (path_resolve [field config "componentsDir"]) in
  do! console_log ("开始查找" +:+ componentsDir +:+ "下的vue文件...") in
  let! vueFiles := lift (findVueFiles componentsDir) in
  match vueFiles with
  | [] => console_log "未找到任何vue组件文件"
  | _ :: _ =>
      do! console_log ("找到" +:+ ofNat (length vueFiles) +:+ "个vue组件文件") in
      let! components := processFiles config vueFiles [] in
      let! customContent := readCustomContent config in
      do! writeIndex config customContent components in
      console_log "文档生成完成!"
  end.

(** The program. *)
Definition main : M unit :=
  do! console_log "vue component api doc gen running..." in
  let! config := loadConfig defaultConfig in
  generate config.

(* ===================================================================== *)
(** ** Vocabulary of the properties *)
(* ===================================================================== *)

(** The props a renderer visits. *)
Definition propList (docData : ComponentDoc) : list PropDescriptor :=
  Object_values (default [] (props docData)).

(** The five characters [escapeHtml] replaces and their entities. *)
Definition specials : list ascii := [amp; lt; gt; quot; apos].
Definition entities : list string := ["&amp;"; "&lt;"; "&gt;"; "&quot;"; "&#039;"].

(** What one character becomes. *)
Definition escapeChar (c : ascii) : string :=
  if Ascii.eqb c amp then "&amp;"
  else if Ascii.eqb c lt then "&lt;"
  else if Ascii.eqb c gt then "&gt;"
  else if Ascii.eqb c quot then "&quot;"
  else if Ascii.eqb c apos then "&#039;"
  else String c EmptyString.

(** Text made of entities and of characters other than the five: no
    [<], [>], double or single quote, and no [&] except as the head of an
    entity. *)
Inductive Escaped : string → Prop :=
  | Escaped_nil : Escaped ""
  | Escaped_entity (e s : string) : e ∈ entities → Escaped s → Escaped (e +:+ s)
  | Escaped_plain (c : ascii) (s : string) : c ∉ specials → Escaped s → Escaped (String c s).

(** *** Sample documents *)

Definition variantType : TypeDescriptor :=
  MkType (Some "union")
    (Some [MkType (Some "primary") None; MkType (Some "secondary") None]).

Definition usageExample : Example :=
  {| ex_title := None; ex_content := Some "<Button label='A & B'/>" |}.

Definition variantProp : PropDescriptor :=
  {| prop_name := "variant"; prop_type := Some variantType;
     prop_defaultValue := Some {| dv_value := "'primary'" |};
     prop_description := Some "The <em>look</em> of the button" |}.

Definition clickEvent : EventDescriptor :=
  {| event_name := Some "click";
     event_properties :=
       Some [{| param_name := Some "event";
                param_type := Some {| names := Some ["MouseEvent"] |};
                param_description := None |}];
     event_description := Some "Fired on <b>click</b>" |}.

Definition defaultSlot : SlotDescriptor :=
  {| slot_name := "default"; slot_description := Some "Label & icon" |}.

Definition buttonDoc : ComponentDoc :=
  {| displayName := Some "Button";
     description := Some "A <strong>button</strong>";
     tags := Some {| examples := Some [usageExample] |};
     props := Some [("variant", variantProp)];
     expose := None;
     events := Some [clickEvent];
     slots := Some [("default", defaultSlot)] |}.

(** A prop declared by name only: the extractor gives it no type. *)
Definition untypedProp : PropDescriptor :=
  {| prop_name := "label"; prop_type := None;
     prop_defaultValue := None; prop_description := None |}.

Definition labelDoc : ComponentDoc :=
  {| displayName := Some "Label"; description := None; tags := None;
     props := Some [("label", untypedProp)];
     expose := None; events := None; slots := None |}.

(** *** Inline code spans

    CommonMark, section 6.1: a backtick string is a maximal run of
    backticks; a code span begins with a backtick string and ends at the
    next backtick string of the same length; backslash escapes do not
    work inside it. *)

(** The length of the backtick string at the head of [s], and what
    follows it. *)
Fixpoint backtickRun (s : string) : nat * string :=
  match s with
  | String c s' =>
      if Ascii.eqb c "`" then let (n, rest) := backtickRun s' in (S n, rest)
      else (0, s)
  | EmptyString => (0, s)
  end.

(** After an opening string of [n] backticks: the first backtick string
    of length [n] in [s] is the end of [s].  [run] counts the backticks of
    the string being read. *)
Fixpoint closesAtEnd (n run : nat) (s : string) : bool :=
  match s with
  | EmptyString => Nat.eqb run n
  | String c s' =>
      if Ascii.eqb c "`" then closesAtEnd n (S run) s'
      else if Nat.eqb run n then false
      else closesAtEnd n 0 s'
  end.

(** [s] is one code span and nothing else. *)
Definition isCodeSpan (s : string) : bool :=
  let (n, rest) := backtickRun s in
  negb (Nat.eqb n 0) && closesAtEnd n 0 rest.

(** The reading under which a backslash does escape the next character
    inside the span: the span opened by one backtick ends at the first
    backtick that is not escaped, which has to be the end of [s]. *)
Fixpoint closesAtEndEscaped (s : string) : bool :=
  match s with
  | EmptyString => false
  | String c s' =>
      if Ascii.eqb c "\" then
        match s' with
        | EmptyString => false
        | String _ s'' => closesAtEndEscaped s''
        end
      else if Ascii.eqb c "`" then String.eqb s' ""
      else closesAtEndEscaped s'
  end.

Definition isEscapedCodeSpan (s : string) : bool :=
  match s with
  | String c s' => Ascii.eqb c "`" && closesAtEndEscaped s'
  | EmptyString => false
  end.

(** A prop whose default is a template literal, and one whose default is
    a string holding an escaped backtick. *)
Definition templateDefaultProp : PropDescriptor :=
  {| prop_name := "label"; prop_type := Some (MkType (Some "string") None);
     prop_defaultValue := Some {| dv_value := "`fallback`" |};
     prop_description := None |}.

Definition escapedBacktickProp : PropDescriptor :=
  {| prop_name := "quote"; prop_type := Some (MkType (Some "string") None);
     prop_defaultValue := Some {| dv_value := "'\`'" |};
     prop_description := None |}.

(** *** Runs *)

(** What a step returns from a world, and the world it leaves. *)
Definition outcome {A} (m : M A) (w : World) : result A := fst (m w).
Definition after {A} (m : M A) (w : World) : World := snd (m w).

(** A world extended by further effects that write nothing. *)
Definition logging (w : World) (lines : list Effect) : World :=
  {| files := files w; trace := (trace w ++ lines)%list |}.

(** The store after a sequence of writes. *)
Fixpoint applyWrites (ws : list (string * string)) (store : gmap string string)
    : gmap string string :=
  match ws with
  | [] => store
  | (path, content) :: ws' => applyWrites ws' (<[path := content]> store)
  end.

(** The index entry a file yields: none when extraction throws or the
    document has no display name. *)
Definition entryOf (file : string) : option IndexEntry :=
  match parse file with
  | Ok d =>
      if truthy (displayName d)
      then Some {| entry_name := tpl (displayName d);
                   entry_description := orElse (description d) "" |}
      else None
  | Throw _ => None
  end.

Definition entriesOf (vueFiles : list string) : list IndexEntry := omap entryOf vueFiles.

(** The configuration a run resolves from a world. *)
Definition resolvedConfig (w : World) : gmap string value :=
  match outcome (loadConfig defaultConfig) w with
  | Ok config => config
  | Throw _ => defaultConfig
  end.

(** The file [readCustomContent] reads under a configuration, if any. *)
Definition customContentFile (config : gmap string value) : option string :=
  match getProp (field config "customContent") (toString (field config "docType")) with
  | Ok contentPath =>
      if isTruthy contentPath then
        match path_resolve [contentPath] with
        | Ok fullPath => Some fullPath
        | Throw _ => None
        end
      else None
  | Throw _ => None
  end.


(** Every write a step adds satisfies [P], and the store changes by these
    writes only. *)
Definition writesOnly (P : string * string → Prop) {A} (m : M A) : Prop :=
  ∀ w, ∃ added,
    trace (after m w) = (trace w ++ added)%list
    ∧ files (after m w) = applyWrites (writes added) (files w)
    ∧ Forall P (writes added).

(** Two worlds whose stores agree outside the paths in [D]. *)
Definition agree (D : string → Prop) (w1 w2 : World) : Prop :=
  ∀ p, ¬ D p → files w1 !! p = files w2 !! p.

(** A step that returns the same from both worlds, adds the same effects
    to both and leaves them in agreement. *)
Definition blindAt (D : string → Prop) {A} (m : M A) (w1 w2 : World) : Prop :=
  outcome m w1 = outcome m w2
  ∧ agree D (after m w1) (after m w2)
  ∧ ∃ added, trace (after m w1) = (trace w1 ++ added)%list
             ∧ trace (after m w2) = (trace w2 ++ added)%list.

(** A step that cannot tell apart worlds that agree outside [D]. *)
Definition blindTo (D : string → Prop) {A} (m : M A) : Prop :=
  ∀ w1 w2, agree D w1 w2 → blindAt D m w1 w2.


(** *** Sample environment *)

Definition sampleConfigFile : string := "/project/component.doc.json".

(** [{"customContent": {"md": "docs/intro.md"}}] *)
Definition partialOverrideText : string :=
  "{" +:+ dq +:+ "customContent" +:+ dq +:+ ": {" +:+ dq +:+ "md" +:+ dq +:+ ": "
  +:+ dq +:+ "docs/intro.md" +:+ dq +:+ "}}".

Definition partialOverride : value :=
  VObj (<["customContent" := VObj (<["md" := VStr "docs/intro.md"]> ∅)]> ∅).

(** [{"docType": "xml"}] *)
Definition xmlOverrideText : string :=
  "{" +:+ dq +:+ "docType" +:+ dq +:+ ": " +:+ dq +:+ "xml" +:+ dq +:+ "}".

Definition xmlOverride : value := VObj (<["docType" := VStr "xml"]> ∅).

(** [{"docType": "md", "customContent": {"md": "docs/intro.md"}}] *)
Definition mdOverrideText : string :=
  "{" +:+ dq +:+ "docType" +:+ dq +:+ ": " +:+ dq +:+ "md" +:+ dq +:+ ", "
  +:+ dq +:+ "customContent" +:+ dq +:+ ": {" +:+ dq +:+ "md" +:+ dq +:+ ": "
  +:+ dq +:+ "docs/intro.md" +:+ dq +:+ "}}".

Definition mdOverride : value :=
  VObj (<["docType" := VStr "md"]>
        (<["customContent" := VObj (<["md" := VStr "docs/intro.md"]> ∅)]> ∅)).

(** The configuration that override resolves to. *)
Definition mdOverrideConfig : gmap string value :=
  <["customContent" := VObj (<["md" := VStr "docs/intro.md"]> ∅)]>
    (<["docType" := VStr "md"]> defaultConfig).

(** [JSON.parse] on the three texts above; anything else here is not
    JSON. *)
Definition sampleJSON (text : string) : result value :=
  if String.eqb text partialOverrideText then Ok partialOverride
  else if String.eqb text xmlOverrideText then Ok xmlOverride
  else if String.eqb text mdOverrideText then Ok mdOverride
  else Throw "Unexpected token".

(** [path.resolve] below [/project] for relative string arguments. *)
Definition sampleResolve (paths : list value) : result string :=
  match paths with
  | [VStr p] => Ok ("/project/" +:+ p)
  | [VStr dir; VStr p] => Ok ("/project/" +:+ dir +:+ "/" +:+ p)
  | _ => Throw "The paths argument must be of type string"
  end.

Definition sampleInvalidArg (name : string) (_ : value) : string :=
  "The " +:+ name +:+ " argument must be of type string".

Definition sampleFiles : list string :=
  ["/project/src/components/Button.vue"; "/project/src/components/Broken.vue";
   "/project/src/components/Anonymous.vue"].

Definition sampleWalk (_ : string) : result (list string) := Ok sampleFiles.

(** A document without a display name. *)
Definition anonymousDoc : ComponentDoc :=
  {| displayName := None; description := Some "nameless"; tags := None;
     props := None; expose := None; events := None; slots := None |}.

Definition sampleParse (filePath : string) : result ComponentDoc :=
  if String.eqb filePath "/project/src/components/Button.vue" then Ok buttonDoc
  else if String.eqb filePath "/project/src/components/Anonymous.vue" then Ok anonymousDoc
  else Throw "Unexpected end of file".

Definition emptyWorld : World := {| files := ∅; trace := [] |}.

Definition worldWith (text : string) : World :=
  {| files := <[sampleConfigFile := text]> ∅; trace := [] |}.

(** A project with a Markdown configuration and a custom-content file,
    before any run and with the pages of an earlier run in place. *)
Definition freshProject : World :=
  {| files := <[sampleConfigFile := mdOverrideText]>
              (<["/project/docs/intro.md" := "Install with npm."]> ∅);
     trace := [] |}.



(** *** Further vocabulary *)

(** The names at the leaves of a descriptor: a union with elements
    stands for the leaves of its elements, anything else for its own
    name. *)
Fixpoint typeLeaves (type : TypeDescriptor) : list string :=
  match type with
  | MkType name elements =>
      match elements with
      | Some (e :: es) =>
          if bool_decide (name = Some "union")
          then flat_map typeLeaves (e :: es)
          else [orElse name ""]
      | _ => [orElse name ""]
      end
  end.

(** Every [|] of [s] stands right after a backslash, which is how a cell
    of a Markdown table keeps a pipe.  [afterBackslash] tells whether the
    character before [s] was one. *)
Fixpoint pipesEscaped (afterBackslash : bool) (s : string) : bool :=
  match s with
  | EmptyString => true
  | String c s' =>
      if Ascii.eqb c "|" then afterBackslash && pipesEscaped false s'
      else pipesEscaped (Ascii.eqb c "\") s'
  end.

(** The extension of the pages of a run. *)
Definition pageExtension (config : gmap string value) : string :=
  if isMd (field config "docType") then ".md" else ".html".

(** The content a path holds after a sequence of writes: what was
    written to it last, if anything was. *)
Fixpoint lastWrite (path : string) (ws : list (string * string)) : option string :=
  match ws with
  | [] => None
  | (p, c) :: ws' =>
      match lastWrite path ws' with
      | Some c' => Some c'
      | None => if String.eqb p path then Some c else None
      end
  end.

(** The texts of an event parameter that reach the cell as they are. *)
Definition paramTexts (prop : EventProperty) : list string :=
  tpl (param_name prop) :: tpl (param_description prop)
  :: match param_type prop with
     | Some {| names := Some ns |} => ns
     | _ => []
     end.

(** *** Further samples *)

(** A member exposed with two type tags. *)
Definition focusExpose : ExposeDescriptor :=
  {| expose_name := "focus";
     expose_tags := Some [{| tag_title := "since"; tag_description := Some "1.2" |};
                          {| tag_title := "type"; tag_description := Some "() => void" |};
                          {| tag_title := "type"; tag_description := Some "Function" |}];
     expose_description := None |}.

(** A union of a name and a union. *)
Definition nestedUnion : TypeDescriptor :=
  MkType (Some "union")
    (Some [MkType (Some "string") None;
           MkType (Some "union")
             (Some [MkType (Some "number") None; MkType (Some "boolean") None])]).

Definition secondExample : Example :=
  {| ex_title := None; ex_content := Some "<Card><p>body</p></Card>" |}.

Definition cardDoc : ComponentDoc :=
  {| displayName := Some "Card"; description := None;
     tags := Some {| examples := Some [usageExample; secondExample] |};
     props := None; expose := Some [focusExpose]; events := None; slots := None |}.

(** [{"docName": "Kit", "theme": "dark"}] and [null]. *)
Definition namedOverrideText : string :=
  "{" +:+ dq +:+ "docName" +:+ dq +:+ ": " +:+ dq +:+ "Kit" +:+ dq +:+ ", "
  +:+ dq +:+ "theme" +:+ dq +:+ ": " +:+ dq +:+ "dark" +:+ dq +:+ "}".

Definition namedOverride : gmap string value :=
  <["docName" := VStr "Kit"]> (<["theme" := VStr "dark"]> ∅).

Definition moreJSON (text : string) : result value :=
  if String.eqb text namedOverrideText then Ok (VObj namedOverride)
  else if String.eqb text "null" then Ok VNull
  else if String.eqb text "42" then Ok (VNum "42")
  else sampleJSON text.




(** A component directory: two components, a nested directory, a
    directory named like a component, a link and an unreadable directory. *)
Definition sampleExtname (name : string) : string :=
  if String.eqb name "Button.vue" || String.eqb name "Card.vue"
     || String.eqb name "legacy.vue" || String.eqb name "Link.vue"
  then ".vue"
  else if String.eqb name "README.md" then ".md"
  else "".

Definition sampleTree : list Walk.Dirent :=
  [Walk.FileEntry "Button.vue";
   Walk.FileEntry "README.md";
   Walk.DirEntry "legacy.vue" (Ok [Walk.FileEntry "Card.vue"; Walk.FileEntry ".vue"]);
   Walk.OtherEntry "Link.vue"].

Definition lockedTree : list Walk.Dirent :=
  [Walk.FileEntry "Button.vue";
   Walk.DirEntry "private" (Throw "EACCES: permission denied, scandir")].


(** The parameters of a [change] event. *)
Definition changeParams : list EventProperty :=
  [{| param_name := Some "value";
      param_type := Some {| names := Some ["string"; "number"] |};
      param_description := Some "the new value" |};
   {| param_name := Some "event"; param_type := None; param_description := None |}].

(** [path.resolve] of a name against an absolute directory. *)
Definition joinResolve (paths : list value) : result string :=
  match paths with
  | [VStr dir; VStr name] => Ok (dir +:+ "/" +:+ name)
  | _ => Throw "The paths argument must be of type string"
  end.
(* ===================================================================== *)
(** * Properties *)
(* ===================================================================== *)

(** A property depends on the part of the environment its statement
    names, and on nothing else. *)
Set Default Proof Using "Type".

(** ** Strings and loops *)

Lemma append_nil_l (s : string) : "" +:+ s = s.
Proof. reflexivity. Qed.

Lemma append_cons (c : ascii) (s t : string) : String c s +:+ t = String c (s +:+ t).
Proof. reflexivity. Qed.

Lemma append_nil_r (s : string) : s +:+ "" = s.
Proof.
  induction s as [|c s IH]; [reflexivity|]. by rewrite append_cons, IH.
Qed.

Lemma append_assoc (a b c : string) : (a +:+ b) +:+ c = a +:+ (b +:+ c).
Proof.
  induction a as [|x a IH]; [reflexivity|]. by rewrite !append_cons, IH.
Qed.

Lemma contains_refl (s : string) : contains s s.
Proof. exists "", "". by rewrite append_nil_l, append_nil_r. Qed.

Lemma contains_app_l (p s t : string) : contains p s → contains p (s +:+ t).
Proof.
  intros (a & b & ->). exists a, (b +:+ t). by rewrite !append_assoc.
Qed.

Lemma contains_app_r (p s t : string) : contains p t → contains p (s +:+ t).
Proof.
  intros (a & b & ->). exists (s +:+ a), b. by rewrite !append_assoc.
Qed.

Lemma contains_trans (p q s : string) : contains p q → contains q s → contains p s.
Proof.
  intros (a & b & ->) (a' & b' & ->).
  exists (a' +:+ a), (b +:+ b'). by rewrite !append_assoc.
Qed.

Lemma contains_String (p : string) (c : ascii) (s : string) :
  contains p s → contains p (String c s).
Proof. intros (a & b & ->). by exists (String c a), b. Qed.

Create HintDb contains.
#[local] Hint Resolve contains_refl contains_app_l contains_app_r contains_String : contains.

(** A loop that appends only grows the accumulator. *)
Lemma appendEach_acc {A} (f : A → nat → string) (l : list A) (i : nat) (acc : string) :
  appendEach f l i acc = acc +:+ appendEach f l i "".
Proof.
  revert i acc. induction l as [|x l IH]; intros i acc; simpl.
  - by rewrite append_nil_r.
  - rewrite append_nil_l, (IH (S i) (acc +:+ f x i)), (IH (S i) (f x i)).
    by rewrite append_assoc.
Qed.

Lemma appendEach_keeps {A} (f : A → nat → string) (l : list A) (i : nat) (acc p : string) :
  contains p acc → contains p (appendEach f l i acc).
Proof. intros H. rewrite appendEach_acc. auto with contains. Qed.

(** What the body appended for an element is in the result. *)
Lemma appendEach_elem {A} (f : A → nat → string) (l : list A) (i : nat) (acc : string)
    (k : nat) (x : A) :
  l !! k = Some x → contains (f x (i + k)) (appendEach f l i acc).
Proof.
  revert i acc k. induction l as [|y l IH]; intros i acc k Hk; [done|].
  destruct k as [|k]; simpl in *.
  - injection Hk as ->. rewrite Nat.add_0_r.
    apply appendEach_keeps. auto with contains.
  - replace (i + S k) with (S i + k) by lia. by apply IH.
Qed.

Lemma appendEachM_acc {A} (f : A → result string) (l : list A) (acc out : string) :
  appendEachM f l acc = Ok out → ∃ t, out = acc +:+ t.
Proof.
  revert acc. induction l as [|x l IH]; intros acc; simpl.
  - intros [= <-]. exists "". by rewrite append_nil_r.
  - destruct (f x) as [s|e]; [|done]. intros H.
    destruct (IH _ H) as [t ->]. exists (s +:+ t). by rewrite append_assoc.
Qed.

Lemma appendEachM_keeps {A} (f : A → result string) (l : list A) (acc out p : string) :
  appendEachM f l acc = Ok out → contains p acc → contains p out.
Proof. intros H Hp. destruct (appendEachM_acc _ _ _ _ H) as [t ->]. auto with contains. Qed.

Lemma appendEachM_elem {A} (f : A → result string) (l : list A) (acc out : string) (x : A) :
  appendEachM f l acc = Ok out → x ∈ l → ∃ s, f x = Ok s ∧ contains s out.
Proof.
  revert acc. induction l as [|y l IH]; intros acc H Hx; [by apply elem_of_nil in Hx|].
  simpl in H. destruct (f y) as [s|e] eqn:Hy; [|done].
  apply elem_of_cons in Hx as [->|Hx].
  - exists s. split; [done|]. eapply appendEachM_keeps; eauto with contains.
  - eauto.
Qed.

(** The loop completes exactly when its body does on every element. *)
Lemma appendEachM_completes {A} (f : A → result string) (l : list A) (acc : string) :
  (∀ x, x ∈ l → completes (f x)) → completes (appendEachM f l acc).
Proof.
  revert acc. induction l as [|x l IH]; intros acc H; simpl.
  - by exists acc.
  - destruct (H x) as [s ->]; [by left|]. apply IH. intros y Hy. apply H. by right.
Qed.

Lemma appendEachM_throws {A} (f : A → result string) (l : list A) (acc e : string) :
  (∀ x, x ∈ l → f x = Throw e ∨ completes (f x)) →
  (∃ x, x ∈ l ∧ f x = Throw e) →
  appendEachM f l acc = Throw e.
Proof.
  revert acc. induction l as [|x l IH]; intros acc Hall (y & Hy & Hfy).
  - by apply elem_of_nil in Hy.
  - simpl. destruct (Hall x) as [->|[s Hs]]; [by left|done|].
    rewrite Hs. apply IH.
    + intros z Hz. apply Hall. by right.
    + apply elem_of_cons in Hy as [->|Hy]; [congruence|eauto].
Qed.

(** ** formatType *)

Lemma orElse_empty (o : option string) : orElse o "" = default "" o.
Proof.
  destruct o as [s|]; simpl; [|done].
  destruct (String.eqb_spec s ""); by subst.
Qed.

(** C2, as amended.  A descriptor named union that holds a non-empty list
    of element descriptors formats as the elements' own formatted strings
    joined by [" | "] in HTML mode and by [" \| "] in Markdown mode; a
    descriptor with any other name formats as its name, the empty string
    when the name is absent; and so does one whose element list is absent
    or empty, whatever its name. *)
Theorem formatType_union_and_simple (type : TypeDescriptor) (isMarkdown : bool) :
  (∀ es, type_name type = Some "union" → type_elements type = Some es → es ≠ [] →
     formatType (Some type) isMarkdown =
       Ok (join (if isMarkdown then " \| " else " | ")
                (map (fun element => formatTypeDescriptor element isMarkdown) es)))
  ∧ (type_name type ≠ Some "union" →
     formatType (Some type) isMarkdown = Ok (default "" (type_name type)))
  ∧ (type_elements type = None ∨ type_elements type = Some [] →
     formatType (Some type) isMarkdown = Ok (default "" (type_name type))).
Proof.
  destruct type as [name elements]. simpl. repeat split.
  - intros es -> -> Hne. destruct es as [|e es]; [done|].
    by rewrite bool_decide_eq_true_2.
  - intros Hname. f_equal. rewrite <- orElse_empty.
    destruct elements as [[|e es]|]; try done.
    by rewrite bool_decide_eq_false_2.
  - intros [->| ->]; f_equal; apply orElse_empty.
Qed.

Lemma formatType_union_and_simple_witness :
  formatType
    (Some (MkType (Some "union")
             (Some [MkType (Some "primary") None;
                    MkType (Some "union")
                      (Some [MkType (Some "a") None; MkType None None])])))
    true = Ok "primary \| a \| "
  ∧ formatType (Some (MkType None (Some []))) false = Ok ""
  ∧ formatType (Some (MkType (Some "union") (Some []))) false = Ok "union".
Proof.
  split; [|split].
  - apply (proj1 (formatType_union_and_simple
             (MkType (Some "union")
                (Some [MkType (Some "primary") None;
                       MkType (Some "union")
                         (Some [MkType (Some "a") None; MkType None None])]))
             true) _ eq_refl eq_refl).
    discriminate.
  - apply (proj1 (proj2 (formatType_union_and_simple (MkType None (Some [])) false))).
    discriminate.
  - apply (proj2 (proj2 (formatType_union_and_simple
                           (MkType (Some "union") (Some [])) false))).
    by right.
Defined.

(** C2 as stated fails on a union whose element list is empty: the guard
    on [elements.length] sends it to the name, not to the empty join. *)
Lemma formatType_empty_union_counterexample :
  ¬ (∀ (type : TypeDescriptor) (es : list TypeDescriptor) (isMarkdown : bool),
       type_name type = Some "union" → type_elements type = Some es →
       formatType (Some type) isMarkdown =
         Ok (join (if isMarkdown then " \| " else " | ")
                  (map (fun element => formatTypeDescriptor element isMarkdown) es))).
Proof.
  intros H. specialize (H (MkType (Some "union") (Some [])) [] false eq_refl eq_refl).
  discriminate H.
Qed.

(** ** Totality of the renderers *)

Lemma hasKeys_propList (docData : ComponentDoc) :
  hasKeys (props docData) = false → propList docData = [].
Proof.
  unfold propList, hasKeys, Object_keys, Object_values.
  destruct (props docData) as [[|p ps]|]; simpl; done.
Qed.

Lemma propList_hasKeys (docData : ComponentDoc) (prop : PropDescriptor) :
  prop ∈ propList docData → hasKeys (props docData) = true.
Proof.
  destruct (hasKeys (props docData)) eqn:H; [done|].
  rewrite (hasKeys_propList _ H). intros Hin. by apply elem_of_nil in Hin.
Qed.

Lemma bind_Ok {A B} (f : A → result B) (a : A) : (Ok a ≫= f) = f a.
Proof. reflexivity. Qed.

Lemma bind_completes {A B} (m : result A) (f : A → result B) :
  completes m → (∀ a, completes (f a)) → completes (m ≫= f).
Proof. intros [a ->] H. rewrite bind_Ok. apply H. Qed.

Lemma Ok_completes {A} (a : A) : completes (Ok a).
Proof. by exists a. Qed.

Lemma formatType_cases (type : option TypeDescriptor) (isMarkdown : bool) :
  (type = None ∧ formatType type isMarkdown = Throw (cannotReadUndefined "name"))
  ∨ (type ≠ None ∧ completes (formatType type isMarkdown)).
Proof.
  destruct type as [t|]; [right|left]; split; try done. apply Ok_completes.
Qed.

Lemma mdProp_cases (prop : PropDescriptor) :
  (prop_type prop = None ∧ mdProp prop = Throw (cannotReadUndefined "name"))
  ∨ (prop_type prop ≠ None ∧ completes (mdProp prop)).
Proof.
  unfold mdProp.
  destruct (formatType_cases (prop_type prop) true) as [[H ->]|[H [s ->]]];
    [left|right]; split; try done.
  rewrite bind_Ok. apply Ok_completes.
Qed.

Lemma htmlProp_cases (prop : PropDescriptor) :
  (prop_type prop = None ∧ htmlProp prop = Throw (cannotReadUndefined "name"))
  ∨ (prop_type prop ≠ None ∧ completes (htmlProp prop)).
Proof.
  unfold htmlProp.
  destruct (formatType_cases (prop_type prop) false) as [[H ->]|[H [s ->]]];
    [left|right]; split; try done.
  rewrite bind_Ok. apply Ok_completes.
Qed.

(** The props section of either renderer, as a loop over [propList]. *)
Lemma props_loop_completes (f : PropDescriptor → result string) (docData : ComponentDoc)
    (acc : string) :
  (∀ prop, (prop_type prop = None ∧ f prop = Throw (cannotReadUndefined "name"))
           ∨ (prop_type prop ≠ None ∧ completes (f prop))) →
  (∀ prop, prop ∈ propList docData → prop_type prop ≠ None) →
  completes (appendEachM f (propList docData) acc).
Proof.
  intros Hf Htyped. apply appendEachM_completes. intros prop Hin.
  destruct (Hf prop) as [[Hnone _]|[_ Hc]]; [|done]. by destruct (Htyped prop Hin).
Qed.

Lemma props_loop_throws (f : PropDescriptor → result string) (docData : ComponentDoc)
    (acc : string) :
  (∀ prop, (prop_type prop = None ∧ f prop = Throw (cannotReadUndefined "name"))
           ∨ (prop_type prop ≠ None ∧ completes (f prop))) →
  (∃ prop, prop ∈ propList docData ∧ prop_type prop = None) →
  appendEachM f (propList docData) acc = Throw (cannotReadUndefined "name").
Proof.
  intros Hf (prop & Hin & Hnone). apply appendEachM_throws.
  - intros x _. destruct (Hf x) as [[_ H]|[_ H]]; auto.
  - exists prop. split; [done|]. destruct (Hf prop) as [[_ H]|[H _]]; done.
Qed.

(** C10.  When every entry of the props mapping carries a type descriptor
    both renderers return a page; when some entry lacks one, both throw
    the error of reading [name] on the missing descriptor. *)
Theorem renderers_total_when_props_typed (docData : ComponentDoc) :
  ((∀ prop, prop ∈ propList docData → prop_type prop ≠ None) →
     completes (generateComponentMarkdown docData)
     ∧ ∀ docName componentName,
         completes (generateComponentHtml docData docName componentName))
  ∧ ((∃ prop, prop ∈ propList docData ∧ prop_type prop = None) →
     generateComponentMarkdown docData = Throw (cannotReadUndefined "name")
     ∧ ∀ docName componentName,
         generateComponentHtml docData docName componentName
         = Throw (cannotReadUndefined "name")).
Proof.
  split.
  - intros Htyped. split; [|intros docName componentName].
    + unfold generateComponentMarkdown.
      apply bind_completes; [|intros; apply Ok_completes].
      destruct (hasKeys (props docData)); [|apply Ok_completes].
      apply bind_completes; [|intros; apply Ok_completes].
      apply (props_loop_completes mdProp docData _ mdProp_cases Htyped).
    + unfold generateComponentHtml.
      apply bind_completes; [|intros; apply Ok_completes].
      destruct (hasKeys (props docData)); [|apply Ok_completes].
      apply bind_completes; [|intros; apply Ok_completes].
      apply (props_loop_completes htmlProp docData _ htmlProp_cases Htyped).
  - intros Hmissing. pose proof Hmissing as (prop & Hin & _).
    pose proof (propList_hasKeys _ _ Hin) as Hkeys.
    split; [|intros docName componentName].
    + unfold generateComponentMarkdown. rewrite Hkeys.
      fold (propList docData).
      by rewrite (props_loop_throws mdProp docData _ mdProp_cases Hmissing).
    + unfold generateComponentHtml. rewrite Hkeys.
      fold (propList docData).
      by rewrite (props_loop_throws htmlProp docData _ htmlProp_cases Hmissing).
Qed.

(** ** escapeHtml *)

Lemma replaceAll_app (c : ascii) (r a b : string) :
  replaceAll c r (a +:+ b) = replaceAll c r a +:+ replaceAll c r b.
Proof.
  induction a as [|x a IH]; [reflexivity|].
  rewrite append_cons. simpl. rewrite IH.
  destruct (Ascii.eqb x c); [by rewrite append_assoc | by rewrite append_cons].
Qed.

Lemma replaceAll_cons_ne (c x : ascii) (r s : string) :
  Ascii.eqb x c = false → replaceAll c r (String x s) = String x (replaceAll c r s).
Proof. intros H. simpl. by rewrite H. Qed.

(** The five replacements in sequence act on each character on its own:
    [&] is replaced first, so the [&] of a later entity is not replaced
    again. *)
Lemma escapeHtml_cons (c : ascii) (s : string) :
  escapeHtml (String c s) = escapeChar c +:+ escapeHtml s.
Proof.
  unfold escapeHtml, escapeChar.
  destruct (Ascii.eqb c amp) eqn:Hamp.
  { simpl replaceAll at 5. rewrite Hamp. by rewrite !replaceAll_app. }
  rewrite (replaceAll_cons_ne amp c) by done.
  destruct (Ascii.eqb c lt) eqn:Hlt.
  { simpl replaceAll at 4. rewrite Hlt. by rewrite !replaceAll_app. }
  rewrite (replaceAll_cons_ne lt c) by done.
  destruct (Ascii.eqb c gt) eqn:Hgt.
  { simpl replaceAll at 3. rewrite Hgt. by rewrite !replaceAll_app. }
  rewrite (replaceAll_cons_ne gt c) by done.
  destruct (Ascii.eqb c quot) eqn:Hquot.
  { simpl replaceAll at 2. rewrite Hquot. by rewrite !replaceAll_app. }
  rewrite (replaceAll_cons_ne quot c) by done.
  destruct (Ascii.eqb c apos) eqn:Hapos.
  { simpl replaceAll at 1. by rewrite Hapos. }
  by rewrite (replaceAll_cons_ne apos c).
Qed.

(** Membership in a list given by its elements. *)
Ltac in_list := solve [repeat first [ by left | right ]].

Lemma escapeHtml_Escaped (s : string) : Escaped (escapeHtml s).
Proof.
  induction s as [|c s IH]; [constructor|].
  rewrite escapeHtml_cons. unfold escapeChar.
  destruct (Ascii.eqb c amp) eqn:Hamp; [constructor; [in_list|done]|].
  destruct (Ascii.eqb c lt) eqn:Hlt; [constructor; [in_list|done]|].
  destruct (Ascii.eqb c gt) eqn:Hgt; [constructor; [in_list|done]|].
  destruct (Ascii.eqb c quot) eqn:Hquot; [constructor; [in_list|done]|].
  destruct (Ascii.eqb c apos) eqn:Hapos; [constructor; [in_list|done]|].
  rewrite append_cons, append_nil_l. apply Escaped_plain; [|done].
  apply Ascii.eqb_neq in Hamp, Hlt, Hgt, Hquot, Hapos.
  unfold specials. intros Hin. repeat (apply elem_of_cons in Hin as [->|Hin]; [done|]).
  by apply elem_of_nil in Hin.
Qed.

Lemma has_app (c : ascii) (a b : string) : has c (a +:+ b) = has c a || has c b.
Proof.
  induction a as [|x a IH]; [reflexivity|].
  rewrite append_cons. simpl. rewrite IH. by rewrite orb_assoc.
Qed.

Lemma escapeHtml_no_markup (c : ascii) (s : string) :
  c ∈ [lt; gt; quot; apos] → has c (escapeHtml s) = false.
Proof.
  intros Hc. induction s as [|x s IH]; [reflexivity|].
  rewrite escapeHtml_cons, has_app, IH, orb_false_r. unfold escapeChar.
  destruct (Ascii.eqb x amp) eqn:Hamp;
    [repeat (apply elem_of_cons in Hc as [->|Hc]; [reflexivity|]); by apply elem_of_nil in Hc|].
  destruct (Ascii.eqb x lt) eqn:Hlt;
    [repeat (apply elem_of_cons in Hc as [->|Hc]; [reflexivity|]); by apply elem_of_nil in Hc|].
  destruct (Ascii.eqb x gt) eqn:Hgt;
    [repeat (apply elem_of_cons in Hc as [->|Hc]; [reflexivity|]); by apply elem_of_nil in Hc|].
  destruct (Ascii.eqb x quot) eqn:Hquot;
    [repeat (apply elem_of_cons in Hc as [->|Hc]; [reflexivity|]); by apply elem_of_nil in Hc|].
  destruct (Ascii.eqb x apos) eqn:Hapos;
    [repeat (apply elem_of_cons in Hc as [->|Hc]; [reflexivity|]); by apply elem_of_nil in Hc|].
  simpl. rewrite orb_false_r.
  repeat (apply elem_of_cons in Hc as [->|Hc]; [done|]). by apply elem_of_nil in Hc.
Qed.

Lemma escapeHtml_chars (s : string) :
  escapeHtml s = String.concat "" (map escapeChar (list_ascii_of_string s)).
Proof.
  induction s as [|c s IH]; [reflexivity|].
  rewrite escapeHtml_cons. simpl. rewrite <- IH.
  destruct s as [|c' s]; [apply append_nil_r | reflexivity].
Qed.

(** ** Where the HTML page puts its inputs *)

(** A section of a page: a heading, one block per element, a closing. *)
Lemma section_keeps {A} (b : bool) (f : A → nat → string) (l : list A)
    (head tail acc p : string) :
  contains p acc →
  contains p (if b then appendEach f l 0 (acc +:+ head) +:+ tail else acc).
Proof.
  intros H. destruct b; [|done].
  apply contains_app_l, appendEach_keeps. auto with contains.
Qed.

Lemma section_elem {A} (f : A → nat → string) (l : list A)
    (head tail acc : string) (x : A) :
  x ∈ l → ∃ k, contains (f x k) (appendEach f l 0 (acc +:+ head) +:+ tail).
Proof.
  intros Hx. apply list_elem_of_lookup in Hx as [k Hk]. exists k.
  apply contains_app_l. by apply (appendEach_elem f l 0 _ k x).
Qed.

Lemma nonEmpty_items {A} (o : option (list A)) (x : A) :
  x ∈ items o → nonEmpty o = true.
Proof.
  destruct o as [[|y l]|]; simpl; try done; intros H; by apply elem_of_nil in H.
Qed.

Lemma hasKeys_values {A} (o : option (list (string * A))) (x : A) :
  x ∈ Object_values (default [] o) → hasKeys o = true.
Proof.
  destruct o as [[|y l]|]; simpl; try done; intros H; by apply elem_of_nil in H.
Qed.

(** The props section, whose rows may throw. *)
Lemma props_section_keeps (b : bool) (f : PropDescriptor → result string)
    (l : list PropDescriptor) (head tail acc out p : string) :
  (if b then (c ← appendEachM f l (acc +:+ head); Ok (c +:+ tail)) else Ok acc) = Ok out →
  contains p acc → contains p out.
Proof.
  destruct b; [|by intros [= <-]].
  destruct (appendEachM f l (acc +:+ head)) as [c|e] eqn:Hloop; [|done].
  rewrite bind_Ok. intros [= <-] Hp.
  apply contains_app_l. eapply appendEachM_keeps; eauto with contains.
Qed.

Lemma props_section_elem (f : PropDescriptor → result string)
    (l : list PropDescriptor) (head tail acc out : string) (x : PropDescriptor) :
  (c ← appendEachM f l (acc +:+ head); Ok (c +:+ tail)) = Ok out →
  x ∈ l → ∃ s, f x = Ok s ∧ contains s out.
Proof.
  destruct (appendEachM f l (acc +:+ head)) as [c|e] eqn:Hloop; [|done].
  rewrite bind_Ok. intros [= <-] Hx.
  destruct (appendEachM_elem _ _ _ _ _ Hloop Hx) as (s & Hs & Hc).
  exists s. split; [done|]. by apply contains_app_l.
Qed.

Lemma orElse_truthy (d fallback : string) : d ≠ "" → orElse (Some d) fallback = d.
Proof. intros H. simpl. by destruct (String.eqb_spec d ""). Qed.

Lemma truthy_Some (d : string) : d ≠ "" → truthy (Some d) = true.
Proof. intros H. simpl. by destruct (String.eqb_spec d ""). Qed.

(** The expose, events and slots sections and the page end keep what the
    page holds so far. *)
Ltac later_sections := apply contains_app_l; do 3 apply section_keeps.

(** Find a part among the pieces of a concatenation. *)
Ltac find_part :=
  first [ apply contains_refl
        | apply contains_app_l, contains_refl
        | apply contains_app_r; find_part ].

Lemma htmlCodeBlock_in_example (example : Example) (index : nat) :
  contains (htmlCodeBlock example) (htmlExample example index).
Proof.
  unfold htmlExample.
  find_part.
Qed.

Lemma description_in_htmlProp (prop : PropDescriptor) (d s : string) :
  htmlProp prop = Ok s → prop_description prop = Some d → d ≠ "" →
  contains (htmlCell d) s.
Proof.
  unfold htmlProp. destruct (formatType (prop_type prop) false) as [t|e]; [|done].
  rewrite bind_Ok. intros [= <-] -> Hd. rewrite (orElse_truthy d "-" Hd).
  find_part.
Qed.

Lemma description_in_htmlEvent (event : EventDescriptor) (d : string) (index : nat) :
  event_description event = Some d → d ≠ "" →
  contains (htmlCell d) (htmlEvent event index).
Proof.
  unfold htmlEvent. intros -> Hd. rewrite (orElse_truthy d "-" Hd).
  find_part.
Qed.

Lemma description_in_htmlSlot (slot : SlotDescriptor) (d : string) (index : nat) :
  slot_description slot = Some d → d ≠ "" →
  contains (htmlCell d) (htmlSlot slot index).
Proof.
  unfold htmlSlot. intros -> Hd. rewrite (orElse_truthy d "-" Hd).
  find_part.
Qed.

(** C1.  In a page the HTML renderer returns, the code block of every
    example holds the example's content after [escapeHtml], which replaces
    each of the five characters by its entity and leaves no [<], [>] or
    quote and no [&] outside an entity; the component description and the
    descriptions of props, events and slots stand in the page as given. *)
Theorem html_escapes_code_not_descriptions (docData : ComponentDoc)
    (docName componentName out : string) :
  generateComponentHtml docData docName componentName = Ok out →
  (∀ example, example ∈ items (doc_examples docData) →
     let code := escapeHtml (orElse (ex_content example) "") in
     contains ("<pre class=" +:+ dq +:+ "code-block" +:+ dq +:+ "><code>"
               +:+ code +:+ "</code></pre>") out
     ∧ code = String.concat ""
                (map escapeChar (list_ascii_of_string (orElse (ex_content example) "")))
     ∧ Escaped code
     ∧ ∀ c, c ∈ [lt; gt; quot; apos] → has c code = false)
  ∧ (∀ d, description docData = Some d → d ≠ "" →
       contains ("<div class=" +:+ dq +:+ "description" +:+ dq +:+ ">" +:+ d +:+ "</div>") out)
  ∧ (∀ prop d, prop ∈ propList docData → prop_description prop = Some d → d ≠ "" →
       contains ("<td>" +:+ d +:+ "</td>") out)
  ∧ (∀ event d, event ∈ items (events docData) → event_description event = Some d → d ≠ "" →
       contains ("<td>" +:+ d +:+ "</td>") out)
  ∧ (∀ slot d, slot ∈ Object_values (default [] (slots docData)) →
       slot_description slot = Some d → d ≠ "" →
       contains ("<td>" +:+ d +:+ "</td>") out).
Proof.
  unfold generateComponentHtml. cbv zeta.
  set (c1 := if truthy (description docData) then _ else _).
  set (c2 := if nonEmpty (doc_examples docData) then _ else _).
  intros H.
  match type of H with (?m ≫= _) = _ => destruct m as [c3|e] eqn:Hprops end; [|done].
  rewrite bind_Ok in H. injection H as <-.
  assert (Hc2 : ∀ p, contains p c2 → contains p c3).
  { intros p Hp. eapply props_section_keeps; eauto. }
  assert (Hc1 : ∀ p, contains p c1 → contains p c2).
  { intros p Hp. subst c2. destruct (nonEmpty (doc_examples docData)); [|done].
    apply appendEach_keeps. auto with contains. }
  repeat split.
  - later_sections. apply Hc2. subst c2.
    rewrite (nonEmpty_items _ _ H).
    apply list_elem_of_lookup in H as [k Hk].
    eapply contains_trans; [apply (htmlCodeBlock_in_example example k)|].
    by apply (appendEach_elem htmlExample _ 0 _ k example).
  - apply escapeHtml_chars.
  - apply escapeHtml_Escaped.
  - intros c. apply escapeHtml_no_markup.
  - intros d Hd Hne. later_sections. apply Hc2, Hc1. subst c1.
    rewrite Hd, (truthy_Some d Hne). simpl tpl. apply contains_app_r, contains_refl.
  - intros prop d Hin Hd Hne.
    rewrite (hasKeys_values _ _ Hin) in Hprops.
    destruct (props_section_elem _ _ _ _ _ _ _ Hprops Hin) as (s & Hs & Hc).
    later_sections. eapply contains_trans; [|exact Hc].
    by apply (description_in_htmlProp prop d s).
  - intros event d Hin Hd Hne. apply contains_app_l, section_keeps.
    rewrite (nonEmpty_items _ _ Hin).
    apply list_elem_of_lookup in Hin as [k Hk].
    eapply contains_trans; [apply (description_in_htmlEvent event d k Hd Hne)|].
    apply contains_app_l. by apply (appendEach_elem htmlEvent _ 0 _ k event).
  - intros slot d Hin Hd Hne. apply contains_app_l.
    rewrite (hasKeys_values _ _ Hin).
    apply list_elem_of_lookup in Hin as [k Hk].
    eapply contains_trans; [apply (description_in_htmlSlot slot d k Hd Hne)|].
    apply contains_app_l. by apply (appendEach_elem htmlSlot _ 0 _ k slot).
Qed.

Lemma html_escapes_code_not_descriptions_witness :
  ∃ out, generateComponentHtml buttonDoc "Docs" "Button" = Ok out
    ∧ contains ("<pre class=" +:+ dq +:+ "code-block" +:+ dq +:+ "><code>"
                +:+ "&lt;Button label=&#039;A &amp; B&#039;/&gt;" +:+ "</code></pre>") out
    ∧ contains ("<div class=" +:+ dq +:+ "description" +:+ dq +:+ ">"
                +:+ "A <strong>button</strong>" +:+ "</div>") out
    ∧ contains ("<td>" +:+ "The <em>look</em> of the button" +:+ "</td>") out
    ∧ contains ("<td>" +:+ "Fired on <b>click</b>" +:+ "</td>") out
    ∧ contains ("<td>" +:+ "Label & icon" +:+ "</td>") out.
Proof.
  eexists. split; [vm_compute; reflexivity|].
  pose proof (html_escapes_code_not_descriptions buttonDoc "Docs" "Button" _ eq_refl)
    as (Hcode & Hdesc & Hprop & Hevent & Hslot).
  split; [|split; [|split; [|split]]].
  - apply (Hcode usageExample). by left.
  - by apply Hdesc.
  - apply (Hprop variantProp); [by left|reflexivity|discriminate].
  - apply (Hevent clickEvent); [by left|reflexivity|discriminate].
  - apply (Hslot defaultSlot); [by left|reflexivity|discriminate].
Defined.

Lemma renderers_total_when_props_typed_witness :
  completes (generateComponentMarkdown buttonDoc)
  ∧ completes (generateComponentHtml buttonDoc "Docs" "Button")
  ∧ generateComponentMarkdown labelDoc = Throw (cannotReadUndefined "name")
  ∧ generateComponentHtml labelDoc "Docs" "Label" = Throw (cannotReadUndefined "name").
Proof.
  assert (Htyped : ∀ prop, prop ∈ propList buttonDoc → prop_type prop ≠ None).
  { intros prop Hin. apply list_elem_of_singleton in Hin as ->. discriminate. }
  assert (Hmissing : ∃ prop, prop ∈ propList labelDoc ∧ prop_type prop = None).
  { exists untypedProp. split; [by left|reflexivity]. }
  destruct (proj1 (renderers_total_when_props_typed buttonDoc) Htyped) as [Hmd Hhtml].
  destruct (proj2 (renderers_total_when_props_typed labelDoc) Hmissing) as [Tmd Thtml].
  split; [exact Hmd|]. split; [apply Hhtml|]. split; [exact Tmd|apply Thtml].
Defined.

(** ** The default-value cell of the Markdown props table *)

(** What the cell is: the value between backticks, each backtick of the
    value behind a backslash; a dash without a default. *)
Lemma mdDefaultValue_shape (prop : PropDescriptor) :
  mdDefaultValue prop =
    match prop_defaultValue prop with
    | Some dv => "`" +:+ replaceAll "`" "\`" (dv_value dv) +:+ "`"
    | None => "-"
    end.
Proof. reflexivity. Qed.

Lemma mdDefaultValue_in_row (prop : PropDescriptor) (row : string) :
  mdProp prop = Ok row → contains (" | " +:+ mdDefaultValue prop +:+ " | ") row.
Proof.
  unfold mdProp. destruct (formatType (prop_type prop) true) as [t|e]; [|done].
  rewrite bind_Ok. intros [= <-]. cbv zeta.
  do 4 apply contains_app_r.
  exists "", (orElse (prop_description prop) "-" +:+ " |" +:+ nl).
  by rewrite append_nil_l, !append_assoc.
Qed.

(** An escaped value never starts with a backtick. *)
Lemma escaped_head (v : string) :
  replaceAll "`" "\`" v = ""
  ∨ ∃ c s, replaceAll "`" "\`" v = String c s ∧ Ascii.eqb c "`" = false.
Proof.
  destruct v as [|c v]; [by left|right]. simpl.
  destruct (Ascii.eqb c "`") eqn:Hc.
  - by exists "\"%char, ("`" +:+ replaceAll "`" "\`" v).
  - by exists c, (replaceAll "`" "\`" v).
Qed.

Lemma closesAtEnd_after_backtick (v : string) :
  closesAtEnd 1 1 (replaceAll "`" "\`" v +:+ "`") = false.
Proof.
  destruct (escaped_head v) as [->|(c & s & -> & Hc)]; [reflexivity|].
  rewrite append_cons. simpl. by rewrite Hc.
Qed.

Lemma closesAtEnd_escaped (v : string) :
  closesAtEnd 1 0 (replaceAll "`" "\`" v +:+ "`") = negb (has "`" v).
Proof.
  induction v as [|c v IH]; [reflexivity|]. simpl.
  destruct (Ascii.eqb c "`") eqn:Hc.
  - rewrite append_assoc. change ("\`" +:+ ?x) with (String "\" (String "`" x)).
    simpl. apply closesAtEnd_after_backtick.
  - rewrite append_cons. simpl. by rewrite Hc, IH.
Qed.

(** Under CommonMark the cell is a code span exactly when the value is
    not empty and holds no backtick: the backslash does not help. *)
Lemma mdDefaultValue_isCodeSpan (prop : PropDescriptor) (dv : DefaultValue) :
  prop_defaultValue prop = Some dv →
  isCodeSpan (mdDefaultValue prop)
  = negb (String.eqb (dv_value dv) "") && negb (has "`" (dv_value dv)).
Proof.
  intros Hdv. rewrite mdDefaultValue_shape, Hdv.
  destruct (dv_value dv) as [|c v] eqn:Hv; [reflexivity|].
  rewrite <- closesAtEnd_escaped.
  destruct (escaped_head (String c v)) as [H|(c' & s & H & Hc)]; rewrite H.
  - simpl in H. destruct (Ascii.eqb c "`"); discriminate.
  - unfold isCodeSpan. rewrite append_cons.
    change ("`" +:+ ?x) with (String "`" x). simpl. rewrite Hc. simpl.
    by rewrite Hc.
Qed.

(** C6 at a prop whose default is a template literal, and at one whose
    default holds an escaped backtick.  The cells are the values between
    backticks with a backslash before each inner backtick, and neither is
    one code span: the first breaks under CommonMark, the second breaks
    whether or not the backslash is read as an escape. *)
Theorem markdown_default_cell_breaks_code_span :
  mdDefaultValue templateDefaultProp = "`\`fallback\``"
  ∧ isCodeSpan (mdDefaultValue templateDefaultProp) = false
  ∧ mdDefaultValue escapedBacktickProp = "`'\\`'`"
  ∧ isCodeSpan (mdDefaultValue escapedBacktickProp) = false
  ∧ isEscapedCodeSpan (mdDefaultValue escapedBacktickProp) = false.
Proof. repeat split; reflexivity. Qed.

(** ** Loading the configuration *)

(** C7.  When the override file exists and [JSON.parse] rejects its
    content, loading logs the error and returns the built-in defaults,
    whole; the run goes on from there as it would without the file. *)
Theorem malformed_override_keeps_defaults (w : World) (text message : string) :
  files w !! configFile = Some text →
  JSON_parse text = Throw message →
  loadConfig defaultConfig w
  = (Ok defaultConfig,
     logging w [Console LevelError [VStr "加载配置文件失败:"; VStr message]])
  ∧ main w
    = generate defaultConfig
        (logging w [Console LevelLog [VStr "vue component api doc gen running..."];
                    Console LevelError [VStr "加载配置文件失败:"; VStr message]]).
Proof.
  intros Hfile Hparse.
  assert (Hload : ∀ w', files w' = files w →
    loadConfig defaultConfig w'
    = (Ok defaultConfig,
       logging w' [Console LevelError [VStr "加载配置文件失败:"; VStr message]])).
  { intros w' Hw'. unfold loadConfig, bind, readIfExists.
    rewrite Hw', Hfile, Hparse. reflexivity. }
  split; [by apply Hload|].
  unfold main, bind at 1. unfold console_log, console at 1.
  unfold bind at 1. rewrite Hload by reflexivity.
  unfold logging. simpl. by rewrite <- List.app_assoc.
Qed.

Lemma getProp_object (m : gmap string value) (key : string) :
  getProp (VObj m) key = Ok (default VUndefined (m !! key)).
Proof. reflexivity. Qed.

(** The custom-content map after an override that holds one: the merge
    spreads the map [Object.assign] has just put in place, so the result
    is the override's own map. *)
Lemma override_customContent_replaces (w : World) (text : string)
    (m cc : gmap string value) :
  files w !! configFile = Some text →
  JSON_parse text = Ok (VObj m) →
  m !! "customContent" = Some (VObj cc) →
  ∃ config, outcome (loadConfig defaultConfig) w = Ok config
    ∧ field config "customContent" = VObj cc.
Proof.
  intros Hfile Hparse Hcc.
  unfold outcome, loadConfig, bind, readIfExists. rewrite Hfile, Hparse.
  assert (Hassigned :
    field (Object_assign defaultConfig (VObj m)) "customContent" = VObj cc).
  { unfold field, Object_assign. simpl ownEntries.
    erewrite lookup_union_Some_l; [reflexivity|]. by rewrite lookup_delete_ne. }
  rewrite getProp_object, Hcc. simpl default. simpl isTruthy. cbv iota.
  rewrite Hassigned. unfold spread2. simpl ownEntries. rewrite map_union_idemp.
  match goal with
  | |- context [if ?b then _ else _] => destruct b
  end; simpl; eexists; (split; [reflexivity|]); unfold field.
  - by rewrite lookup_insert_eq.
  - rewrite lookup_insert_ne by done. by rewrite lookup_insert_eq.
Qed.

(** ** The loop over the files *)

(** C3.  A file whose extraction throws, or whose document has no display
    name, adds console lines only, one of them naming the file as skipped:
    nothing is written, the list of index entries is passed on unchanged,
    and the loop goes on with the remaining files. *)
Theorem invalid_file_is_skipped (config : gmap string value) (file : string)
    (rest : list string) (components : list IndexEntry) (w : World) :
  throws (parse file) ∨ (∃ d, parse file = Ok d ∧ truthy (displayName d) = false) →
  ∃ lines,
    processFile config file components w = (Ok components, logging w lines)
    ∧ writes lines = []
    ∧ Console LevelLog [VStr ("跳过无效组件文件: " +:+ file)] ∈ lines
    ∧ contains file ("跳过无效组件文件: " +:+ file)
    ∧ processFiles config (file :: rest) components w
      = processFiles config rest components (logging w lines).
Proof.
  intros [[message Hthrow]|(d & Hdoc & Hname)].
  - exists [Console LevelError [VStr ("解析组件" +:+ file +:+ "失败:"); VStr message];
            Console LevelLog [VStr ("跳过无效组件文件: " +:+ file)]].
    assert (Hbody : processFile config file components w
      = (Ok components,
         logging w [Console LevelError [VStr ("解析组件" +:+ file +:+ "失败:"); VStr message];
                    Console LevelLog [VStr ("跳过无效组件文件: " +:+ file)]])).
    { unfold processFile, getComponentDoc, bind. rewrite Hthrow.
      unfold logging. simpl. by rewrite <- List.app_assoc. }
    split; [exact Hbody|]. split; [reflexivity|]. split; [by right; left|].
    split; [apply contains_app_r, contains_refl|].
    simpl processFiles. unfold bind at 1. by rewrite Hbody.
  - exists [Console LevelLog [VStr ("跳过无效组件文件: " +:+ file)]].
    assert (Hbody : processFile config file components w
      = (Ok components,
         logging w [Console LevelLog [VStr ("跳过无效组件文件: " +:+ file)]])).
    { unfold processFile, getComponentDoc, bind. rewrite Hdoc. simpl.
      by rewrite Hname. }
    split; [exact Hbody|]. split; [reflexivity|]. split; [by left|].
    split; [apply contains_app_r, contains_refl|].
    simpl processFiles. unfold bind at 1. by rewrite Hbody.
Qed.

(** ** Effects of a run *)

Lemma writes_app (a b : list Effect) : writes (a ++ b) = (writes a ++ writes b)%list.
Proof.
  induction a as [|[level args|path content] a IH]; simpl; [done|done|by rewrite IH].
Qed.

Lemma applyWrites_app (a b : list (string * string)) (store : gmap string string) :
  applyWrites (a ++ b) store = applyWrites b (applyWrites a store).
Proof.
  revert store. induction a as [|[path content] a IH]; intros store; simpl; [done|apply IH].
Qed.

Section WritesOnly.
Context (P : string * string → Prop).

Lemma writesOnly_silent {A} (m : M A) :
  (∀ w, ∃ lines, after m w = logging w lines ∧ writes lines = []) → writesOnly P m.
Proof.
  intros H w. destruct (H w) as (lines & -> & Hlines). exists lines.
  rewrite Hlines. by repeat split.
Qed.

Lemma writesOnly_ret {A} (a : A) : writesOnly P (ret a).
Proof.
  apply writesOnly_silent. intros w. exists []. unfold after, logging. simpl.
  rewrite List.app_nil_r. by destruct w.
Qed.

Lemma writesOnly_lift {A} (r : result A) : writesOnly P (lift r).
Proof.
  apply writesOnly_silent. intros w. exists []. unfold after, logging. simpl.
  rewrite List.app_nil_r. by destruct w.
Qed.

Lemma writesOnly_raise {A} (e : string) : writesOnly P (@raise A e).
Proof. apply (writesOnly_lift (Throw e)). Qed.

Lemma writesOnly_readIfExists (path : string) : writesOnly P (readIfExists path).
Proof.
  apply writesOnly_silent. intros w. exists []. unfold after, logging. simpl.
  rewrite List.app_nil_r. by destruct w.
Qed.

Lemma writesOnly_console (level : Level) (args : list value) :
  writesOnly P (console level args).
Proof. apply writesOnly_silent. intros w. by exists [Console level args]. Qed.

Lemma writesOnly_console_log (s : string) : writesOnly P (console_log s).
Proof. apply writesOnly_console. Qed.

Lemma writesOnly_writeFile (path content : string) :
  P (path, content) → writesOnly P (writeFile path content).
Proof.
  intros HP w. exists [WriteFile path content]. repeat split. simpl. by constructor.
Qed.

Lemma writesOnly_bind {A B} (m : M A) (k : A → M B) :
  writesOnly P m →
  (∀ a w, outcome m w = Ok a → writesOnly P (k a)) →
  writesOnly P (bind m k).
Proof.
  intros Hm Hk w. destruct (Hm w) as (added & Htrace & Hfiles & HP).
  unfold after, outcome in *. unfold bind.
  destruct (m w) as [[a|e] w'] eqn:Hmw; simpl in *; [|by exists added].
  assert (Ha : fst (m w) = Ok a) by (by rewrite Hmw).
  destruct (Hk a w Ha w') as (added2 & Htrace2 & Hfiles2 & HP2).
  exists (added ++ added2)%list. unfold after in *.
  rewrite Htrace2, Hfiles2, Htrace, Hfiles, writes_app, applyWrites_app.
  rewrite <- List.app_assoc. repeat split. by apply Forall_app.
Qed.

Lemma writesOnly_catch {A} (m : M A) (handler : string → M A) :
  writesOnly P m → (∀ e, writesOnly P (handler e)) → writesOnly P (catch m handler).
Proof.
  intros Hm Hh w. destruct (Hm w) as (added & Htrace & Hfiles & HP).
  unfold after in *. unfold catch.
  destruct (m w) as [[a|e] w'] eqn:Hmw; simpl in *; [by exists added|].
  destruct (Hh e w') as (added2 & Htrace2 & Hfiles2 & HP2).
  exists (added ++ added2)%list. unfold after in *.
  rewrite Htrace2, Hfiles2, Htrace, Hfiles, writes_app, applyWrites_app.
  rewrite <- List.app_assoc. repeat split. by apply Forall_app.
Qed.

(** Steps built from the console, reads and pure results write nothing. *)
Ltac silent :=
  intros; repeat first
    [ apply writesOnly_ret | apply writesOnly_lift | apply writesOnly_raise
    | apply writesOnly_console | apply writesOnly_console_log
    | apply writesOnly_readIfExists
    | apply writesOnly_bind; [|intros ? ? _]
    | apply writesOnly_catch; [|intros ?]
    | match goal with
      | |- writesOnly _ (match ?x with _ => _ end) => destruct x
      | |- writesOnly _ (if ?b then _ else _) => destruct b
      end ].

Lemma loadConfig_writesOnly (config : gmap string value) :
  writesOnly P (loadConfig config).
Proof. unfold loadConfig. silent. Qed.

Lemma readCustomContent_writesOnly (config : gmap string value) :
  writesOnly P (readCustomContent config).
Proof. unfold readCustomContent. silent. Qed.

Lemma ensureDir_writesOnly (dir : value) : writesOnly P (ensureDir dir).
Proof. unfold ensureDir. silent. Qed.

Lemma getComponentDoc_writesOnly (file : string) : writesOnly P (getComponentDoc file).
Proof. unfold getComponentDoc. silent. Qed.

Lemma processFile_writesOnly (config : gmap string value) (file : string)
    (components : list IndexEntry) :
  (∀ d componentName page, renderPage config d componentName = Ok page → P page) →
  writesOnly P (processFile config file components).
Proof.
  intros Hpage. unfold processFile.
  apply writesOnly_bind; [apply getComponentDoc_writesOnly|].
  intros [d|] _ _; [|silent]. destruct (truthy (displayName d)); [|silent].
  apply writesOnly_bind; [silent|]. intros page w Hrender.
  apply writesOnly_bind; [|silent].
  apply writesOnly_writeFile. destruct page as [path content].
  by apply (Hpage d (tpl (displayName d))).
Qed.

Lemma processFiles_writesOnly (config : gmap string value) (vueFiles : list string)
    (components : list IndexEntry) :
  (∀ d componentName page, renderPage config d componentName = Ok page → P page) →
  writesOnly P (processFiles config vueFiles components).
Proof.
  intros Hpage. revert components.
  induction vueFiles as [|file rest IH]; intros components; simpl; [silent|].
  apply writesOnly_bind; [by apply processFile_writesOnly|]. intros; apply IH.
Qed.

Lemma writeIndex_writesOnly (config : gmap string value) (customContent : string)
    (components : list IndexEntry) :
  (∀ path content,
     path_resolve [field config "outDir";
                   VStr (if isMd (field config "docType") then "index.md" else "index.html")]
     = Ok path → P (path, content)) →
  writesOnly P (writeIndex config customContent components).
Proof.
  intros Hindex. unfold writeIndex.
  destruct (isMd (field config "docType"));
    (apply writesOnly_bind; [silent|]; intros path w Hpath;
     apply writesOnly_bind; [|silent]; apply writesOnly_writeFile; by apply Hindex).
Qed.

Lemma generate_writesOnly (config : gmap string value) :
  (∀ d componentName page, renderPage config d componentName = Ok page → P page) →
  (∀ path content,
     path_resolve [field config "outDir";
                   VStr (if isMd (field config "docType") then "index.md" else "index.html")]
     = Ok path → P (path, content)) →
  writesOnly P (generate config).
Proof.
  intros Hpage Hindex. unfold generate.
  apply writesOnly_bind; [silent|]; intros _ _ _.
  apply writesOnly_bind; [apply ensureDir_writesOnly|]; intros _ _ _.
  apply writesOnly_bind; [silent|]; intros componentsDir _ _.
  apply writesOnly_bind; [silent|]; intros _ _ _.
  apply writesOnly_bind; [silent|]; intros [|file rest] _ _; [silent|].
  apply writesOnly_bind; [silent|]; intros _ _ _.
  apply writesOnly_bind; [by apply processFiles_writesOnly|]; intros components _ _.
  apply writesOnly_bind; [apply readCustomContent_writesOnly|]; intros customContent _ _.
  apply writesOnly_bind; [by apply writeIndex_writesOnly|]; intros _ _ _.
  silent.
Qed.

End WritesOnly.

(** ** An unrecognised output format *)

Lemma field_assigned (m : gmap string value) (key : string) (v : value) :
  key ≠ "__proto__" → m !! key = Some v →
  field (Object_assign defaultConfig (VObj m)) key = v.
Proof.
  intros Hkey Hm. unfold field, Object_assign. simpl ownEntries.
  erewrite lookup_union_Some_l; [reflexivity|]. by rewrite lookup_delete_ne.
Qed.

Lemma field_insert_ne (config : gmap string value) (key key' : string) (v : value) :
  key ≠ key' → field (<[key := v]> config) key' = field config key'.
Proof. intros H. unfold field. by rewrite lookup_insert_ne. Qed.





(** ** The index page *)











(** ** Runs on the same inputs *)

Section BlindTo.
Context (D : string → Prop).

(** A step whose result and console lines do not depend on the world. *)
Lemma blindTo_fixed {A} (m : M A) (r : result A) (lines : list Effect) :
  (∀ w, m w = (r, logging w lines)) → blindTo D m.
Proof.
  intros Hm w1 w2 Hagree. unfold blindAt, outcome, after. rewrite !Hm. simpl.
  split; [done|]. split; [exact Hagree|]. by exists lines.
Qed.

Lemma logging_nil (w : World) : logging w [] = w.
Proof. destruct w. unfold logging. simpl. by rewrite List.app_nil_r. Qed.

Lemma blindTo_ret {A} (a : A) : blindTo D (ret a).
Proof. apply (blindTo_fixed _ (Ok a) []). intros w. by rewrite logging_nil. Qed.

Lemma blindTo_lift {A} (r : result A) : blindTo D (lift r).
Proof. apply (blindTo_fixed _ r []). intros w. by rewrite logging_nil. Qed.

Lemma blindTo_raise {A} (e : string) : blindTo D (@raise A e).
Proof. apply (blindTo_lift (Throw e)). Qed.

Lemma blindTo_console (level : Level) (args : list value) :
  blindTo D (console level args).
Proof. by apply (blindTo_fixed _ (Ok tt) [Console level args]). Qed.

Lemma blindTo_console_log (s : string) : blindTo D (console_log s).
Proof. apply blindTo_console. Qed.

Lemma blindTo_readIfExists (path : string) : ¬ D path → blindTo D (readIfExists path).
Proof.
  intros Hpath w1 w2 Hagree. unfold blindAt, outcome, after, readIfExists. simpl.
  split; [by rewrite (Hagree path Hpath)|]. split; [exact Hagree|].
  exists []. by rewrite !List.app_nil_r.
Qed.

Lemma blindTo_writeFile (path content : string) : blindTo D (writeFile path content).
Proof.
  intros w1 w2 Hagree. unfold blindAt, outcome, after, writeFile. simpl.
  split; [done|]. split; [|by exists [WriteFile path content]].
  intros p Hp. simpl. destruct (decide (path = p)) as [->|Hne].
  - by rewrite !lookup_insert_eq.
  - rewrite !lookup_insert_ne by done. by apply Hagree.
Qed.

Lemma blindAt_bind {A B} (m : M A) (k : A → M B) (w1 w2 : World) :
  blindAt D m w1 w2 →
  (∀ a, outcome m w1 = Ok a → blindAt D (k a) (after m w1) (after m w2)) →
  blindAt D (bind m k) w1 w2.
Proof.
  intros (Hout & Hagree & added & Ht1 & Ht2) Hk.
  unfold blindAt, outcome, after, bind in *.
  destruct (m w1) as [[a|e] w1'] eqn:H1, (m w2) as [[a'|e'] w2'] eqn:H2;
    simpl in *; try discriminate.
  - injection Hout as <-.
    destruct (Hk a eq_refl) as (Hout' & Hagree' & added' & Ht1' & Ht2').
    split; [exact Hout'|]. split; [exact Hagree'|]. exists (added ++ added')%list.
    rewrite Ht1', Ht2', Ht1, Ht2. by rewrite <- !List.app_assoc.
  - injection Hout as <-. split; [reflexivity|]. split; [exact Hagree|]. by exists added.
Qed.

Lemma blindTo_bind {A B} (m : M A) (k : A → M B) :
  blindTo D m →
  (∀ a w, outcome m w = Ok a → blindTo D (k a)) →
  blindTo D (bind m k).
Proof.
  intros Hm Hk w1 w2 Hagree. apply blindAt_bind; [by apply Hm|].
  intros a Ha. apply (Hk a w1 Ha). by apply Hm.
Qed.

Lemma blindTo_catch {A} (m : M A) (handler : string → M A) :
  blindTo D m → (∀ e, blindTo D (handler e)) → blindTo D (catch m handler).
Proof.
  intros Hm Hh w1 w2 Hagree.
  destruct (Hm w1 w2 Hagree) as (Hout & Hagree' & added & Ht1 & Ht2).
  unfold blindAt, outcome, after, catch in *.
  destruct (m w1) as [[a|e] w1'] eqn:H1, (m w2) as [[a'|e'] w2'] eqn:H2;
    simpl in *; try discriminate.
  - split; [exact Hout|]. split; [exact Hagree'|]. by exists added.
  - injection Hout as <-.
    destruct (Hh e w1' w2' Hagree') as (Hout' & Hagree'' & added' & Ht1' & Ht2').
    unfold outcome, after in *.
    split; [exact Hout'|]. split; [exact Hagree''|]. exists (added ++ added')%list.
    rewrite Ht1', Ht2', Ht1, Ht2. by rewrite <- !List.app_assoc.
Qed.

(** Steps that read no file. *)
Ltac blind :=
  intros; repeat first
    [ apply blindTo_ret | apply blindTo_lift | apply blindTo_raise
    | apply blindTo_console | apply blindTo_console_log | apply blindTo_writeFile
    | apply blindTo_bind; [|intros ? ? _]
    | apply blindTo_catch; [|intros ?]
    | match goal with
      | |- blindTo _ (match ?x with _ => _ end) => destruct x
      | |- blindTo _ (if ?b then _ else _) => destruct b
      end ].

Lemma loadConfig_blindTo (config : gmap string value) :
  ¬ D configFile → blindTo D (loadConfig config).
Proof.
  intros Hconfig. unfold loadConfig.
  apply blindTo_bind; [by apply blindTo_readIfExists|]. blind.
Qed.

Lemma processFiles_blindTo (config : gmap string value) (vueFiles : list string)
    (components : list IndexEntry) :
  blindTo D (processFiles config vueFiles components).
Proof.
  revert components. induction vueFiles as [|file rest IH]; intros components; simpl.
  - blind.
  - apply blindTo_bind; [|intros; apply IH].
    unfold processFile, getComponentDoc. blind.
Qed.

Lemma readCustomContent_blindTo (config : gmap string value) :
  (∀ p, customContentFile config = Some p → ¬ D p) →
  blindTo D (readCustomContent config).
Proof.
  intros Hfile. unfold readCustomContent.
  apply blindTo_catch; [|blind].
  apply blindTo_bind; [blind|]. intros contentPath w Hprop.
  destruct (isTruthy contentPath) eqn:Htruthy; [|blind].
  apply blindTo_bind; [blind|]. intros fullPath w' Hpath.
  apply blindTo_bind; [|blind].
  apply blindTo_readIfExists, Hfile.
  unfold customContentFile. unfold outcome, lift in Hprop, Hpath. simpl in Hprop, Hpath.
  by rewrite Hprop, Htruthy, Hpath.
Qed.

Lemma generate_blindTo (config : gmap string value) :
  (∀ p, customContentFile config = Some p → ¬ D p) →
  blindTo D (generate config).
Proof.
  intros Hfile. unfold generate.
  apply blindTo_bind; [blind|]; intros _ _ _.
  apply blindTo_bind; [unfold ensureDir; blind|]; intros _ _ _.
  apply blindTo_bind; [blind|]; intros componentsDir _ _.
  apply blindTo_bind; [blind|]; intros _ _ _.
  apply blindTo_bind; [blind|]; intros [|file rest] _ _; [blind|].
  apply blindTo_bind; [blind|]; intros _ _ _.
  apply blindTo_bind; [apply processFiles_blindTo|]; intros components _ _.
  apply blindTo_bind; [by apply readCustomContent_blindTo|]; intros customContent _ _.
  apply blindTo_bind; [unfold writeIndex; blind|]; intros _ _ _.
  blind.
Qed.

End BlindTo.

Lemma main_writesOnly : writesOnly (fun _ => True) main.
Proof.
  unfold main.
  apply writesOnly_bind; [apply writesOnly_console_log|]; intros _ _ _.
  apply writesOnly_bind; [apply loadConfig_writesOnly|]; intros config _ _.
  by apply generate_writesOnly.
Qed.

Lemma loadConfig_outcome_files (config : gmap string value) (w w' : World) :
  files w = files w' →
  outcome (loadConfig config) w = outcome (loadConfig config) w'.
Proof.
  intros Hfiles.
  apply (loadConfig_blindTo (fun _ => False) config (fun H => H) w w').
  intros p _. by rewrite Hfiles.
Qed.




(* ===================================================================== *)
(** * Further properties *)
(* ===================================================================== *)

(** ** More on escapeHtml *)

Lemma escapeHtml_nil : escapeHtml "" = "".
Proof. reflexivity. Qed.

(** X1.  Escaping a concatenation is concatenating the escapes: a
    replacement never reaches across the point where two texts meet. *)
Theorem escapeHtml_app (a b : string) :
  escapeHtml (a +:+ b) = escapeHtml a +:+ escapeHtml b.
Proof. unfold escapeHtml. by rewrite !replaceAll_app. Qed.

(** What one character becomes, by cases. *)
Lemma escapeChar_cases (c : ascii) :
  (c = amp ∧ escapeChar c = "&amp;")
  ∨ (c = lt ∧ escapeChar c = "&lt;")
  ∨ (c = gt ∧ escapeChar c = "&gt;")
  ∨ (c = quot ∧ escapeChar c = "&quot;")
  ∨ (c = apos ∧ escapeChar c = "&#039;")
  ∨ ((c ∉ specials) ∧ escapeChar c = String c EmptyString).
Proof.
  unfold escapeChar.
  destruct (Ascii.eqb_spec c amp) as [->|Hamp]; [by left|].
  destruct (Ascii.eqb_spec c lt) as [->|Hlt]; [by right; left|].
  destruct (Ascii.eqb_spec c gt) as [->|Hgt]; [by right; right; left|].
  destruct (Ascii.eqb_spec c quot) as [->|Hquot]; [by right; right; right; left|].
  destruct (Ascii.eqb_spec c apos) as [->|Hapos]; [by right; right; right; right; left|].
  do 5 right. split; [|done]. unfold specials. intros Hin.
  repeat (apply elem_of_cons in Hin as [->|Hin]; [done|]). by apply elem_of_nil in Hin.
Qed.

Lemma not_special_amp (c : ascii) : c ∉ specials → c ≠ amp.
Proof. intros H ->. apply H. by left. Qed.

(** X2.  [escapeHtml] loses nothing: two texts with the same escape are
    the same text. *)
Theorem escapeHtml_injective (s1 s2 : string) :
  escapeHtml s1 = escapeHtml s2 → s1 = s2.
Proof.
  revert s2. induction s1 as [|c1 s1 IH]; intros [|c2 s2].
  - done.
  - rewrite escapeHtml_cons, escapeHtml_nil.
    destruct (escapeChar_cases c2) as [[_ ->]|[[_ ->]|[[_ ->]|[[_ ->]|[[_ ->]|[_ ->]]]]]];
      rewrite !append_cons; discriminate.
  - rewrite escapeHtml_cons, escapeHtml_nil.
    destruct (escapeChar_cases c1) as [[_ ->]|[[_ ->]|[[_ ->]|[[_ ->]|[[_ ->]|[_ ->]]]]]];
      rewrite !append_cons; discriminate.
  - rewrite !escapeHtml_cons.
    destruct (escapeChar_cases c1) as [[-> ->]|[[-> ->]|[[-> ->]|[[-> ->]|[[-> ->]|[H1 ->]]]]]];
    destruct (escapeChar_cases c2) as [[-> ->]|[[-> ->]|[[-> ->]|[[-> ->]|[[-> ->]|[H2 ->]]]]]];
      rewrite !append_cons, !append_nil_l; intros H;
      try discriminate H;
      try (injection H as H; f_equal; by apply IH);
      try (injection H as <- _; exfalso; by apply (not_special_amp _ H2));
      try (injection H as -> _; exfalso; by apply (not_special_amp _ H1)).
    injection H as -> H. f_equal. by apply IH.
Qed.

Lemma escapeHtml_length (s : string) :
  (String.length s ≤ String.length (escapeHtml s))%nat.
Proof.
  induction s as [|c s IH]; [done|]. rewrite escapeHtml_cons.
  destruct (escapeChar_cases c) as [[_ ->]|[[_ ->]|[[_ ->]|[[_ ->]|[[_ ->]|[_ ->]]]]]];
    rewrite !append_cons, !append_nil_l; simpl; lia.
Qed.

(** X3.  A text is its own escape exactly when it holds none of the five
    characters. *)
Theorem escapeHtml_fixpoint (s : string) :
  escapeHtml s = s ↔ ∀ c, c ∈ specials → has c s = false.
Proof.
  induction s as [|x s IH].
  - split; [by intros _ c _|done].
  - rewrite escapeHtml_cons. split.
    + intros H.
      destruct (escapeChar_cases x) as [[-> Hx]|[[-> Hx]|[[-> Hx]|[[-> Hx]|[[-> Hx]|[Hx Hx']]]]]];
        rewrite ?Hx in H; rewrite ?append_cons, ?append_nil_l in H;
        try discriminate H;
        try (injection H as H;
             pose proof (escapeHtml_length s) as Hlen;
             rewrite <- H in Hlen at 1; simpl in Hlen;
             exfalso; lia).
      rewrite Hx' in H. rewrite append_cons, append_nil_l in H. injection H as H.
      intros c Hc. simpl. rewrite (proj1 IH H c Hc), orb_false_r.
      apply Ascii.eqb_neq. by intros ->.
    + intros H.
      assert (Hx : x ∉ specials).
      { intros Hin. specialize (H x Hin). simpl in H. by rewrite Ascii.eqb_refl in H. }
      destruct (escapeChar_cases x) as [[-> _]|[[-> _]|[[-> _]|[[-> _]|[[-> _]|[_ ->]]]]]];
        try (exfalso; apply Hx; in_list).
      rewrite append_cons, append_nil_l. f_equal. apply IH.
      intros c Hc. specialize (H c Hc). simpl in H. by apply orb_false_elim in H as [_ H].
Qed.

(** ** More on formatType *)

Lemma TypeDescriptor_elements_ind (P : TypeDescriptor → Prop) :
  (∀ name, P (MkType name None)) →
  (∀ name es, Forall P es → P (MkType name (Some es))) →
  ∀ type, P type.
Proof.
  intros Hnone Hsome. fix IH 1. intros [name [es|]]; [|apply Hnone].
  apply Hsome. induction es as [|e es IHes]; constructor; [apply IH|exact IHes].
Qed.

Lemma join_singleton (sep x : string) : join sep [x] = x.
Proof. reflexivity. Qed.

Lemma join_cons (sep x : string) (l : list string) :
  l ≠ [] → join sep (x :: l) = x +:+ sep +:+ join sep l.
Proof. by destruct l. Qed.

Lemma join_app (sep : string) (l1 l2 : list string) :
  l1 ≠ [] → l2 ≠ [] →
  join sep (l1 ++ l2) = join sep l1 +:+ sep +:+ join sep l2.
Proof.
  intros H1 H2. induction l1 as [|x l1 IH]; [done|].
  destruct l1 as [|y l1].
  - simpl app. by rewrite join_cons, join_singleton.
  - change ((x :: y :: l1) ++ l2)%list with (x :: ((y :: l1) ++ l2))%list.
    rewrite join_cons by done. rewrite IH by done.
    rewrite (join_cons sep x (y :: l1)) by done. by rewrite !append_assoc.
Qed.

Lemma join_concat (sep : string) (ls : list (list string)) :
  Forall (fun l => l ≠ []) ls →
  join sep (map (join sep) ls) = join sep (concat ls).
Proof.
  induction ls as [|l ls IH]; [done|]. intros Hne.
  apply Forall_cons in Hne as [Hl Hls]. destruct ls as [|l' ls].
  - simpl. by rewrite List.app_nil_r.
  - simpl map. rewrite join_cons by done.
    change (join sep (join sep l' :: map (join sep) ls))
      with (join sep (map (join sep) (l' :: ls))).
    rewrite IH by done.
    change (concat (l :: l' :: ls)) with (l ++ concat (l' :: ls))%list.
    symmetry. apply join_app; [done|].
    apply Forall_cons in Hls as [Hl' _]. simpl. destruct l'; [done|]. discriminate.
Qed.

Lemma formatTypeDescriptor_elements (name : option string) (e : TypeDescriptor)
    (es : list TypeDescriptor) (isMarkdown : bool) :
  formatTypeDescriptor (MkType name (Some (e :: es))) isMarkdown
  = if bool_decide (name = Some "union")
    then join (unionSeparator isMarkdown)
           (map (fun element => formatTypeDescriptor element isMarkdown) (e :: es))
    else orElse name "".
Proof. reflexivity. Qed.

Lemma typeLeaves_elements (name : option string) (e : TypeDescriptor)
    (es : list TypeDescriptor) :
  typeLeaves (MkType name (Some (e :: es)))
  = if bool_decide (name = Some "union")
    then flat_map typeLeaves (e :: es)
    else [orElse name ""].
Proof. reflexivity. Qed.

Lemma typeLeaves_nonempty (type : TypeDescriptor) : typeLeaves type ≠ [].
Proof.
  induction type as [name|name es IH] using TypeDescriptor_elements_ind; [done|].
  destruct es as [|e es]; [done|]. rewrite typeLeaves_elements.
  destruct (bool_decide (name = Some "union")); [|done].
  apply Forall_cons in IH as [He _]. simpl. destruct (typeLeaves e); [done|]. discriminate.
Qed.

Lemma formatTypeDescriptor_leaves (type : TypeDescriptor) (isMarkdown : bool) :
  formatTypeDescriptor type isMarkdown
  = join (unionSeparator isMarkdown) (typeLeaves type).
Proof.
  induction type as [name|name es IH] using TypeDescriptor_elements_ind; [done|].
  destruct es as [|e es]; [done|].
  rewrite formatTypeDescriptor_elements, typeLeaves_elements.
  destruct (bool_decide (name = Some "union")); [|done].
  rewrite flat_map_concat_map, <- join_concat.
  - rewrite map_map. f_equal. apply map_ext_Forall. exact IH.
  - apply Forall_map, Forall_forall. intros t _. apply typeLeaves_nonempty.
Qed.

(** X4.  Nesting is flattened: a descriptor formats as its leaf names, in
    order, joined by the one separator of the mode, so a union inside a
    union reads like the union of all the names. *)
Theorem formatType_flattens (type : TypeDescriptor) (isMarkdown : bool) :
  formatType (Some type) isMarkdown
  = Ok (join (if isMarkdown then " \| " else " | ") (typeLeaves type)).
Proof.
  unfold formatType. f_equal.
  change (if isMarkdown then " \| " else " | ") with (unionSeparator isMarkdown).
  apply formatTypeDescriptor_leaves.
Qed.

Lemma pipesEscaped_mono (s : string) :
  pipesEscaped false s = true → pipesEscaped true s = true.
Proof. destruct s as [|c s]; [done|]. simpl. by destruct (Ascii.eqb c "|"). Qed.

Lemma pipesEscaped_app (b : bool) (s t : string) :
  pipesEscaped b s = true → pipesEscaped false t = true →
  pipesEscaped b (s +:+ t) = true.
Proof.
  revert b. induction s as [|c s IH]; intros b Hs Ht.
  - rewrite append_nil_l. destruct b; [by apply pipesEscaped_mono|done].
  - rewrite append_cons. simpl in *. destruct (Ascii.eqb c "|").
    + apply andb_true_iff in Hs as [-> Hs]. simpl. by apply IH.
    + by apply IH.
Qed.

Lemma pipesEscaped_no_pipe (b : bool) (s : string) :
  has "|" s = false → pipesEscaped b s = true.
Proof.
  revert b. induction s as [|c s IH]; intros b H; [done|]. simpl in *.
  apply orb_false_elim in H as [-> H]. by apply IH.
Qed.

Lemma pipesEscaped_join (l : list string) :
  Forall (fun name => has "|" name = false) l →
  pipesEscaped false (join " \| " l) = true.
Proof.
  induction l as [|x l IH]; [done|]. intros H. apply Forall_cons in H as [Hx Hl].
  destruct l as [|y l]; [by apply pipesEscaped_no_pipe|].
  rewrite join_cons by done. apply pipesEscaped_app; [by apply pipesEscaped_no_pipe|].
  apply (pipesEscaped_app false " \| "); [done|by apply IH].
Qed.

(** X5.  In Markdown mode a formatted type has no bare pipe: when no leaf
    name holds a [|], every [|] of the result stands right after a
    backslash, so a union cannot split the cell of the props table. *)
Theorem formatType_markdown_escapes_pipes (type : TypeDescriptor) (formatted : string) :
  Forall (fun name => has "|" name = false) (typeLeaves type) →
  formatType (Some type) true = Ok formatted →
  pipesEscaped false formatted = true
  ∧ pipesEscaped false ("`" +:+ formatted +:+ "`") = true.
Proof.
  intros Hnames. unfold formatType. rewrite formatTypeDescriptor_leaves. intros [= <-].
  pose proof (pipesEscaped_join _ Hnames) as H. split; [exact H|].
  apply (pipesEscaped_app false "`"); [done|]. by apply pipesEscaped_app.
Qed.

(** ** getExposeType *)

Lemma find_first {A} (f : A → bool) (pre post : list A) (x : A) :
  Forall (fun y => f y = false) pre → f x = true →
  List.find f (pre ++ x :: post)%list = Some x.
Proof.
  intros Hpre Hx. induction pre as [|y pre IH]; simpl.
  - by rewrite Hx.
  - apply Forall_cons in Hpre as [-> Hpre]. by apply IH.
Qed.

Lemma find_none {A} (f : A → bool) (l : list A) :
  Forall (fun y => f y = false) l → List.find f l = None.
Proof.
  induction l as [|y l IH]; [done|]. intros H. apply Forall_cons in H as [Hy Hl].
  simpl. rewrite Hy. by apply IH.
Qed.

(** X6.  The type of an exposed member is the description of the first
    tag titled type, whatever tags follow it; without such a tag (or
    without tags) it is a dash. *)
Theorem getExposeType_first_type_tag (exposeItem : ExposeDescriptor) :
  (∀ pre tag post,
     expose_tags exposeItem = Some (pre ++ tag :: post)%list →
     Forall (fun t => tag_title t ≠ "type") pre →
     tag_title tag = "type" →
     getExposeType exposeItem = tag_description tag)
  ∧ (Forall (fun t => tag_title t ≠ "type") (items (expose_tags exposeItem)) →
     getExposeType exposeItem = Some "-").
Proof.
  unfold getExposeType. split.
  - intros pre tag post -> Hpre Htag.
    rewrite (find_first _ pre post tag).
    + by destruct pre.
    + eapply Forall_impl; [exact Hpre|]. intros t Ht. by apply String.eqb_neq.
    + by apply String.eqb_eq.
  - intros Hnone. destruct (expose_tags exposeItem) as [[|t ts]|]; [done| |done].
    rewrite find_none; [done|].
    eapply Forall_impl; [exact Hnone|]. intros t' Ht. by apply String.eqb_neq.
Qed.

(** ** Examples in the two pages *)

(** X7.  Examples are numbered from one, by position: the example at
    index [k] stands in the Markdown page as a heading with its own title,
    or with "示例 k+1" when it has none, over a fenced block holding its
    content as given (not escaped); the HTML page heads it the same way. *)
Theorem examples_numbered_from_one (docData : ComponentDoc) (k : nat)
    (example : Example) :
  items (doc_examples docData) !! k = Some example →
  let title := orElse (ex_title example) ("示例 " +:+ ofNat (k + 1)) in
  (∀ out, generateComponentMarkdown docData = Ok out →
     contains ("### " +:+ title +:+ nl +:+ nl
               +:+ "```html" +:+ nl +:+ orElse (ex_content example) "" +:+ nl
               +:+ "```" +:+ nl +:+ nl) out)
  ∧ (∀ docName componentName out,
       generateComponentHtml docData docName componentName = Ok out →
       contains ("<h3 class=" +:+ dq +:+ "example-title" +:+ dq +:+ ">"
                 +:+ title +:+ "</h3>") out).
Proof.
  intros Hk title.
  assert (Hne : nonEmpty (doc_examples docData) = true).
  { apply (nonEmpty_items _ example), list_elem_of_lookup. by exists k. }
  split.
  - intros out. unfold generateComponentMarkdown. cbv zeta. rewrite Hne.
    set (c1 := if truthy (description docData) then _ else _).
    intros H.
    match type of H with (?m ≫= _) = _ => destruct m as [c3|e] eqn:Hprops end; [|done].
    rewrite bind_Ok in H. injection H as <-.
    do 3 apply section_keeps. eapply props_section_keeps; [exact Hprops|].
    apply (appendEach_elem mdExample _ 0 _ k example Hk).
  - intros docName componentName out. unfold generateComponentHtml. cbv zeta.
    rewrite Hne.
    set (c1 := if truthy (description docData) then _ else _).
    intros H.
    match type of H with (?m ≫= _) = _ => destruct m as [c3|e] eqn:Hprops end; [|done].
    rewrite bind_Ok in H. injection H as <-.
    later_sections. eapply props_section_keeps; [exact Hprops|].
    eapply contains_trans;
      [|apply (appendEach_elem htmlExample _ 0 _ k example Hk)].
    unfold htmlExample, exampleTitle. cbv zeta.
    exists (nl +:+ "            <div class=" +:+ dq +:+ "example-container" +:+ dq +:+ ">"
            +:+ nl +:+ "                "),
           (nl +:+ "                " +:+ htmlCodeBlock example
            +:+ nl +:+ "            </div>").
    rewrite !append_assoc. vm_compute. reflexivity.
Qed.

(** ** More on loading the configuration *)

Lemma Object_assign_nothing (config : gmap string value) (source : value) :
  ownEntries source = ∅ → Object_assign config source = config.
Proof.
  intros H. unfold Object_assign. rewrite H, delete_empty. apply (left_id_L ∅ (∪)).
Qed.

Lemma getProp_throws (v : value) (key message : string) :
  getProp v key = Throw message → ownEntries v = ∅.
Proof. by destruct v. Qed.

(** X8.  Loading never throws and never writes, and it logs at most one
    line, whatever the override file holds: every failure on the way is
    caught and reported on the console. *)
Theorem loadConfig_always_resolves (w : World) :
  ∃ config lines,
    loadConfig defaultConfig w = (Ok config, logging w lines)
    ∧ writes lines = []
    ∧ (length lines ≤ 1)%nat.
Proof.
  unfold loadConfig, bind, readIfExists.
  destruct (files w !! configFile) as [text|];
    [|exists defaultConfig, []; rewrite logging_nil; repeat split; simpl; lia].
  destruct (JSON_parse text) as [customConfig|message];
    [|exists defaultConfig, [Console LevelError [VStr "加载配置文件失败:"; VStr message]];
      repeat split; simpl; lia].
  destruct (getProp customConfig "customContent") as [customContent|message] eqn:Hprop.
  - cbv zeta.
    match goal with
    | |- context [if isDocType ?v then _ else _] => destruct (isDocType v)
    end.
    + eexists _, []. rewrite logging_nil. repeat split; simpl; lia.
    + eexists _, [_]. repeat split; simpl; lia.
  - rewrite (Object_assign_nothing _ _ (getProp_throws _ _ _ Hprop)).
    exists defaultConfig, [Console LevelError [VStr "加载配置文件失败:"; VStr message]].
    repeat split; simpl; lia.
Qed.

Lemma resolvedConfig_object (w : World) (text : string) (m : gmap string value) :
  files w !! configFile = Some text →
  JSON_parse text = Ok (VObj m) →
  ∃ merged,
    merged = (if isTruthy (default VUndefined (m !! "customContent"))
              then <["customContent" :=
                       VObj (spread2 (field (Object_assign defaultConfig (VObj m))
                                        "customContent")
                                     (default VUndefined (m !! "customContent")))]>
                     (Object_assign defaultConfig (VObj m))
              else Object_assign defaultConfig (VObj m))
    ∧ loadConfig defaultConfig w
      = (if isDocType (field merged "docType")
         then (Ok merged, w)
         else (Ok (<["docType" := VStr "html"]> merged),
               logging w [Console LevelWarn
                            [VStr ("无效的docType配置: " +:+ toString (field merged "docType")
                                   +:+ "，将使用默认值html")]])).
Proof.
  intros Hfile Hparse. eexists. split; [reflexivity|].
  unfold loadConfig, bind, readIfExists. rewrite Hfile, Hparse, getProp_object.
  cbv zeta.
  match goal with
  | |- context [if isDocType ?v then _ else _] => destruct (isDocType v)
  end; reflexivity.
Qed.

Lemma field_assigned_none (m : gmap string value) (key : string) :
  m !! key = None →
  field (Object_assign defaultConfig (VObj m)) key = field defaultConfig key.
Proof.
  intros Hm. unfold field, Object_assign. simpl ownEntries.
  rewrite lookup_union_r; [done|].
  destruct (decide (key = "__proto__")) as [->|Hne];
    [apply lookup_delete_eq | by rewrite lookup_delete_ne].
Qed.

(** X9.  The override is shallow and total: a top-level key the override
    sets (other than the format and the custom-content map, which are
    treated apart) takes the override's value, known to the program or
    not, and a built-in key it does not set keeps its built-in value. *)
Theorem override_is_shallow (w : World) (text : string) (m : gmap string value) :
  files w !! configFile = Some text →
  JSON_parse text = Ok (VObj m) →
  (∀ key v, key ∉ ["customContent"; "docType"; "__proto__"] →
     m !! key = Some v → field (resolvedConfig w) key = v)
  ∧ (∀ key, is_Some (defaultConfig !! key) → key ≠ "docType" → m !! key = None →
       field (resolvedConfig w) key = field defaultConfig key).
Proof.
  intros Hfile Hparse.
  destruct (resolvedConfig_object w text m Hfile Hparse) as (merged & Hmerged & Hload).
  assert (Hresolved : ∀ key, key ≠ "docType" →
            field (resolvedConfig w) key = field merged key).
  { intros key Hkey. unfold resolvedConfig, outcome. rewrite Hload.
    destruct (isDocType (field merged "docType")); simpl; [done|].
    by rewrite field_insert_ne. }
  split.
  - intros key v Hkey Hm.
    assert (key ≠ "customContent" ∧ key ≠ "docType" ∧ key ≠ "__proto__") as (H1 & H2 & H3).
    { repeat split; intros ->; apply Hkey; in_list. }
    rewrite Hresolved by done. subst merged.
    destruct (isTruthy _); [rewrite field_insert_ne by done|]; by apply field_assigned.
  - intros key _ Hkey Hm. rewrite Hresolved by done. subst merged.
    destruct (decide (key = "customContent")) as [->|Hcc].
    + rewrite Hm. simpl. by apply field_assigned_none.
    + destruct (isTruthy _); [rewrite field_insert_ne by done|];
        by apply field_assigned_none.
Qed.

(** X10.  An override that sets the format to [html] or [md] gets it,
    and loading logs nothing. *)
Theorem valid_docType_is_kept (w : World) (text : string) (m : gmap string value)
    (v : value) :
  files w !! configFile = Some text →
  JSON_parse text = Ok (VObj m) →
  m !! "docType" = Some v →
  isDocType v = true →
  ∃ config, loadConfig defaultConfig w = (Ok config, w)
            ∧ field config "docType" = v.
Proof.
  intros Hfile Hparse Hm Hv.
  destruct (resolvedConfig_object w text m Hfile Hparse) as (merged & Hmerged & Hload).
  assert (Hfield : field merged "docType" = v).
  { subst merged. destruct (isTruthy _); [rewrite field_insert_ne by done|];
      by apply field_assigned. }
  rewrite Hfield, Hv in Hload. by exists merged.
Qed.

(** X11.  An override file that is JSON but not an object: [null] is
    reported as a failure to load, a number or a boolean is ignored
    without a word; the defaults stand in each case. *)
Theorem non_object_override_keeps_defaults (w : World) (text : string) :
  files w !! configFile = Some text →
  (JSON_parse text = Ok VNull →
     loadConfig defaultConfig w
     = (Ok defaultConfig,
        logging w [Console LevelError
                     [VStr "加载配置文件失败:";
                      VStr "Cannot read properties of null (reading 'customContent')"]]))
  ∧ (∀ v, (∃ r, v = VNum r) ∨ (∃ b, v = VBool b) →
       JSON_parse text = Ok v →
       loadConfig defaultConfig w = (Ok defaultConfig, w)).
Proof.
  intros Hfile. split.
  - intros Hparse. unfold loadConfig, bind, readIfExists. rewrite Hfile, Hparse.
    simpl getProp. by rewrite Object_assign_nothing.
  - intros v Hv Hparse. unfold loadConfig, bind, readIfExists. rewrite Hfile, Hparse.
    assert (Hprop : getProp v "customContent" = Ok VUndefined)
      by (by destruct Hv as [[r ->]|[b ->]]).
    rewrite Hprop. cbv zeta. simpl isTruthy. cbv iota.
    rewrite Object_assign_nothing by (by destruct Hv as [[r ->]|[b ->]]).
    reflexivity.
Qed.

(** ** readCustomContent *)


(** ** More on the run *)





Lemma renderPage_path (config : gmap string value) (d : ComponentDoc)
    (componentName : string) (page : string * string) :
  renderPage config d componentName = Ok page →
  path_resolve [field config "outDir"; VStr (componentName +:+ pageExtension config)]
  = Ok (fst page).
Proof.
  unfold renderPage, pageExtension. destruct (isMd (field config "docType"));
    destruct (path_resolve _) as [outputFile|e]; try done; rewrite bind_Ok.
  - destruct (generateComponentMarkdown d); [|done]. by intros [= <-].
  - destruct (generateComponentHtml _ _ _); [|done]. by intros [= <-].
Qed.

Lemma processFile_page (config : gmap string value) (file : string)
    (components components' : list IndexEntry) (w w' : World) :
  processFile config file components w = (Ok components', w') →
  ∃ added,
    trace w' = (trace w ++ added)%list
    ∧ Forall2 (fun entry write =>
                 path_resolve [field config "outDir";
                               VStr (entry_name entry +:+ pageExtension config)]
                 = Ok (fst write))
              (option_list (entryOf file)) (writes added).
Proof.
  unfold processFile, getComponentDoc, entryOf, bind.
  destruct (parse file) as [d|message]; simpl.
  - destruct (truthy (displayName d)); simpl.
    + destruct (renderPage config d (tpl (displayName d))) as [page|e] eqn:Hpage;
        simpl; [|done].
      intros [= _ <-]. simpl. eexists [_; _]. rewrite <- List.app_assoc.
      split; [reflexivity|]. simpl. constructor; [|constructor].
      by apply renderPage_path in Hpage.
    + intros [= _ <-]. eexists [_]. split; [reflexivity|]. constructor.
  - intros [= _ <-]. eexists [_; _]. rewrite <- List.app_assoc.
    split; [reflexivity|]. constructor.
Qed.

(** X16.  The loop writes one page for each index entry, in the order of
    the entries, at the path resolved from the entry's name and the
    extension of the format, and writes nothing else: every link of the
    index has its page. *)
Theorem pages_match_index_entries (config : gmap string value) (vueFiles : list string)
    (components components' : list IndexEntry) (w w' : World) :
  processFiles config vueFiles components w = (Ok components', w') →
  ∃ added,
    trace w' = (trace w ++ added)%list
    ∧ Forall2 (fun entry write =>
                 path_resolve [field config "outDir";
                               VStr (entry_name entry +:+ pageExtension config)]
                 = Ok (fst write))
              (entriesOf vueFiles) (writes added).
Proof.
  revert components w. induction vueFiles as [|file rest IH]; intros components w.
  - intros [= _ <-]. exists []. rewrite List.app_nil_r. split; [done|constructor].
  - simpl processFiles. unfold bind at 1.
    destruct (processFile config file components w) as [[cs|e] w1] eqn:Hfile; [|done].
    intros Hrest. apply IH in Hrest as (added2 & Ht2 & Hpages2).
    apply processFile_page in Hfile as (added1 & Ht1 & Hpages1).
    exists (added1 ++ added2)%list. rewrite Ht2, Ht1, <- List.app_assoc.
    split; [done|]. rewrite writes_app.
    assert (entriesOf (file :: rest) = option_list (entryOf file) ++ entriesOf rest)%list
      as -> by (unfold entriesOf; simpl; by destruct (entryOf file)).
    by apply Forall2_app.
Qed.

Lemma applyWrites_lookup (ws : list (string * string)) (store : gmap string string)
    (path : string) :
  applyWrites ws store !! path
  = match lastWrite path ws with
    | Some content => Some content
    | None => store !! path
    end.
Proof.
  revert store. induction ws as [|[q c] ws IH]; intros store; [done|].
  simpl. rewrite IH. destruct (lastWrite path ws); [done|].
  destruct (String.eqb_spec q path) as [->|Hne].
  - apply lookup_insert_eq.
  - by apply lookup_insert_ne.
Qed.


Lemma applyWrites_twice (ws : list (string * string)) (store : gmap string string) :
  applyWrites ws (applyWrites ws store) = applyWrites ws store.
Proof.
  apply map_eq. intros path. rewrite !applyWrites_lookup.
  by destruct (lastWrite path ws).
Qed.

Lemma main_blindAt (w1 w2 : World) :
  files w1 !! configFile = files w2 !! configFile →
  (∀ p, customContentFile (resolvedConfig w1) = Some p →
        files w1 !! p = files w2 !! p) →
  blindAt (fun p => files w1 !! p ≠ files w2 !! p) main w1 w2.
Proof.
  intros Hconfig Hcustom.
  set (D := fun p => files w1 !! p ≠ files w2 !! p).
  assert (Hagree : agree D w1 w2).
  { intros p Hp. destruct (decide (files w1 !! p = files w2 !! p)); [done|].
    by destruct Hp. }
  unfold main. apply blindAt_bind; [by apply blindTo_console_log|]. intros [] _.
  apply blindAt_bind.
  - apply loadConfig_blindTo; [by intros H; apply H|]. exact Hagree.
  - intros config Hloaded. apply generate_blindTo.
    + intros p Hp. intros H. apply H, Hcustom. unfold resolvedConfig.
      rewrite (loadConfig_outcome_files defaultConfig w1
                 (after (console_log "vue component api doc gen running...") w1))
        by reflexivity.
      by rewrite Hloaded.
    + by apply (loadConfig_blindTo D defaultConfig (fun H => H Hconfig)).
Qed.

(** X18.  A run that left its two inputs as they were, the configuration
    file and the custom-content file, is reproduced by the next run: the
    second run ends the same way, logs and writes the same in the same
    order, and leaves the store as the first run left it. *)
Theorem rerun_reproduces_the_run (w : World) :
  files (after main w) !! configFile = files w !! configFile →
  (∀ p, customContentFile (resolvedConfig w) = Some p →
        files (after main w) !! p = files w !! p) →
  outcome main (after main w) = outcome main w
  ∧ files (after main (after main w)) = files (after main w)
  ∧ ∃ added,
      trace (after main w) = (trace w ++ added)%list
      ∧ trace (after main (after main w)) = (trace (after main w) ++ added)%list.
Proof.
  intros Hconfig Hcustom.
  destruct (main_blindAt w (after main w)) as (Hout & _ & added & Ht1 & Ht2).
  { by rewrite Hconfig. }
  { intros p Hp. by rewrite (Hcustom p Hp). }
  split; [by rewrite Hout|]. split; [|by exists added].
  destruct (main_writesOnly w) as (added1 & Ht1' & Hf1 & _).
  destruct (main_writesOnly (after main w)) as (added2 & Ht2' & Hf2 & _).
  rewrite Ht1 in Ht1'. apply app_inv_head in Ht1'. subst added1.
  rewrite Ht2 in Ht2'. apply app_inv_head in Ht2'. subst added2.
  rewrite Hf2, Hf1. apply applyWrites_twice.
Qed.

(** ** Event parameters *)

Lemma pipesEscaped_concat (sep : string) (l : list string) :
  pipesEscaped false sep = true →
  Forall (fun item => pipesEscaped false item = true) l →
  pipesEscaped false (join sep l) = true.
Proof.
  intros Hsep. induction l as [|x l IH]; [done|]. intros H.
  apply Forall_cons in H as [Hx Hl].
  destruct l as [|y l]; [done|].
  rewrite join_cons by done. apply pipesEscaped_app; [done|].
  apply pipesEscaped_app; [done|by apply IH].
Qed.

Lemma formatEventParam_escapes_pipes (prop : EventProperty) :
  Forall (fun text => has "|" text = false) (paramTexts prop) →
  pipesEscaped false (formatEventParam true prop) = true.
Proof.
  unfold paramTexts, formatEventParam. intros H.
  apply Forall_cons in H as [Hname H]. apply Forall_cons in H as [Hdesc Hnames].
  apply pipesEscaped_app; [by apply pipesEscaped_no_pipe|].
  apply (pipesEscaped_app false ": "); [done|].
  apply pipesEscaped_app.
  - apply (pipesEscaped_app false bt); [done|]. apply pipesEscaped_app; [|done].
    destruct (param_type prop) as [[[[|n ns]|]]|]; try done.
    by apply pipesEscaped_join.
  - destruct (truthy (param_description prop)); [|done].
    apply (pipesEscaped_app false " - "); [done|]. by apply pipesEscaped_no_pipe.
Qed.

(** X19.  In Markdown mode the parameters of an event cannot split the
    cell of the events table: when no parameter name, description or
    type name holds a [|], every [|] of the cell stands right after a
    backslash. *)
Theorem formatEventParams_markdown_escapes_pipes
    (properties : option (list EventProperty)) :
  Forall (fun prop => Forall (fun text => has "|" text = false) (paramTexts prop))
         (items properties) →
  pipesEscaped false (formatEventParams properties true) = true.
Proof.
  destruct properties as [[|prop ps]|]; try done. intros H.
  unfold formatEventParams. apply pipesEscaped_concat; [done|].
  apply Forall_map. simpl in H. eapply Forall_impl; [exact H|]. intros prop'.
  apply formatEventParam_escapes_pipes.
Qed.

(** ** The walk over the component directory *)

Section WalkProofs.

Variable path_extname : string → string.

Lemma Dirent_entries_ind (P : Walk.Dirent → Prop) :
  (∀ name, P (Walk.FileEntry name)) →
  (∀ name, P (Walk.OtherEntry name)) →
  (∀ name e, P (Walk.DirEntry name (Throw e))) →
  (∀ name entries, Forall P entries → P (Walk.DirEntry name (Ok entries))) →
  ∀ entry, P entry.
Proof.
  intros Hfile Hother Hlocked Hdir. fix IH 1. intros [name|name [entries|e]|name].
  - apply Hfile.
  - apply Hdir. induction entries as [|entry rest IHrest]; constructor;
      [apply IH|exact IHrest].
  - apply Hlocked.
  - apply Hother.
Qed.

Lemma findVueFilesEntry_dir (dir name fullPath : string) (entries : list Walk.Dirent)
    (results : list string) :
  path_resolve [VStr dir; VStr name] = Ok fullPath →
  Walk.findVueFilesEntry path_resolve path_extname dir
    (Walk.DirEntry name (Ok entries)) results
  = match Walk.findVueFilesLoop path_resolve path_extname fullPath entries [] with
    | Ok found => Ok (results ++ found)%list
    | Throw e => Throw e
    end.
Proof.
  intros Hpath. simpl. rewrite Hpath.
  generalize (@nil string). induction entries as [|entry rest IH]; intros found.
  - reflexivity.
  - simpl. destruct (Walk.findVueFilesEntry _ _ fullPath entry found); [apply IH|done].
Qed.

Lemma findVueFilesEntry_acc (dir : string) (entry : Walk.Dirent) (results : list string) :
  Walk.findVueFilesEntry path_resolve path_extname dir entry results
  = match Walk.findVueFilesEntry path_resolve path_extname dir entry [] with
    | Ok found => Ok (results ++ found)%list
    | Throw e => Throw e
    end.
Proof.
  destruct entry as [name|name [entries|e]|name].
  - simpl. destruct (path_resolve _); [|done].
    destruct (String.eqb _ _); by rewrite ?List.app_nil_r.
  - destruct (path_resolve [VStr dir; VStr name]) as [fullPath|e] eqn:Hpath.
    + rewrite !(findVueFilesEntry_dir _ _ _ _ _ Hpath).
      by destruct (Walk.findVueFilesLoop _ _ _ _ _).
    + simpl. by rewrite Hpath.
  - simpl. by destruct (path_resolve _).
  - simpl. destruct (path_resolve _); by rewrite ?List.app_nil_r.
Qed.

Lemma findVueFilesLoop_cons (dir : string) (entry : Walk.Dirent)
    (rest : list Walk.Dirent) (results : list string) :
  Walk.findVueFilesLoop path_resolve path_extname dir (entry :: rest) results
  = match Walk.findVueFilesEntry path_resolve path_extname dir entry [] with
    | Ok found =>
        match Walk.findVueFilesLoop path_resolve path_extname dir rest [] with
        | Ok found' => Ok (results ++ found ++ found')%list
        | Throw e => Throw e
        end
    | Throw e => Throw e
    end.
Proof.
  revert entry results. induction rest as [|entry' rest IH]; intros entry results.
  - simpl. rewrite findVueFilesEntry_acc.
    destruct (Walk.findVueFilesEntry _ _ dir entry []); by rewrite ?List.app_nil_r.
  - change (Walk.findVueFilesLoop path_resolve path_extname dir
              (entry :: entry' :: rest) results)
      with (match Walk.findVueFilesEntry path_resolve path_extname dir entry results with
            | Ok results' =>
                Walk.findVueFilesLoop path_resolve path_extname dir (entry' :: rest) results'
            | Throw e => Throw e
            end).
    rewrite findVueFilesEntry_acc.
    destruct (Walk.findVueFilesEntry _ _ dir entry []) as [found|e]; [|done].
    rewrite (IH entry' (results ++ found)%list), (IH entry' []).
    destruct (Walk.findVueFilesEntry _ _ dir entry' []) as [found'|e]; [|done].
    destruct (Walk.findVueFilesLoop _ _ dir rest []) as [found''|e]; [|done].
    simpl. by rewrite <- List.app_assoc.
Qed.

Lemma findVueFilesLoop_found (dir : string) (entries : list Walk.Dirent)
    (paths : list string) :
  Forall (fun entry => ∀ dir paths,
            Walk.findVueFilesEntry path_resolve path_extname dir entry [] = Ok paths →
            length paths = Walk.vueFileCount path_extname entry
            ∧ ∀ p, p ∈ paths ↔ Walk.Found path_resolve path_extname dir entry p)
         entries →
  Walk.findVueFilesLoop path_resolve path_extname dir entries [] = Ok paths →
  length paths = list_sum (map (Walk.vueFileCount path_extname) entries)
  ∧ ∀ p, p ∈ paths
         ↔ ∃ entry, entry ∈ entries ∧ Walk.Found path_resolve path_extname dir entry p.
Proof.
  intros Hall. revert paths. induction Hall as [|entry rest Hentry _ IH]; intros paths.
  - intros [= <-]. split; [done|]. intros p. split.
    + by intros ?%elem_of_nil.
    + by intros (entry & ?%elem_of_nil & _).
  - rewrite findVueFilesLoop_cons.
    destruct (Walk.findVueFilesEntry _ _ dir entry []) as [found|e] eqn:Hfound; [|done].
    destruct (Walk.findVueFilesLoop _ _ dir rest []) as [found'|e] eqn:Hrest; [|done].
    intros [= <-]. destruct (Hentry _ _ Hfound) as [Hcount Hin].
    destruct (IH _ eq_refl) as [Hcount' Hin'].
    split; [simpl; rewrite List.length_app; lia|].
    intros p. simpl. rewrite elem_of_app, Hin, Hin'. split.
    + intros [Hp|(entry' & Hentry' & Hp)].
      * exists entry. split; [by left|done].
      * exists entry'. split; [by right|done].
    + intros (entry' & [->|Hentry']%elem_of_cons & Hp); [by left|].
      right. by exists entry'.
Qed.

Lemma findVueFilesEntry_found (entry : Walk.Dirent) (dir : string) (paths : list string) :
  Walk.findVueFilesEntry path_resolve path_extname dir entry [] = Ok paths →
  length paths = Walk.vueFileCount path_extname entry
  ∧ ∀ p, p ∈ paths ↔ Walk.Found path_resolve path_extname dir entry p.
Proof.
  revert dir paths. induction entry as [name|name|name e|name entries IH]
    using Dirent_entries_ind; intros dir paths.
  - simpl. destruct (path_resolve _) as [fullPath|e] eqn:Hpath; [|done].
    destruct (String.eqb_spec (path_extname name) ".vue") as [Hvue|Hother];
      intros [= <-]; (split; [done|]); intros p; split.
    + intros ->%list_elem_of_singleton. by constructor.
    + inversion 1; subst. apply list_elem_of_singleton. congruence.
    + by intros ?%elem_of_nil.
    + inversion 1; subst. done.
  - simpl. destruct (path_resolve _); [|done]. intros [= <-]. split; [done|].
    intros p; split; [by intros ?%elem_of_nil|inversion 1].
  - simpl. by destruct (path_resolve _).
  - destruct (path_resolve [VStr dir; VStr name]) as [fullPath|e] eqn:Hpath;
      [|simpl; by rewrite Hpath].
    rewrite (findVueFilesEntry_dir _ _ _ _ _ Hpath).
    destruct (Walk.findVueFilesLoop _ _ fullPath entries []) as [found|e] eqn:Hloop;
      [|done].
    intros [= <-]. destruct (findVueFilesLoop_found _ _ _ IH Hloop) as [Hcount Hin].
    split; [exact Hcount|]. intros p. rewrite Hin. split.
    + intros (entry & Hentry & Hp). by apply (Walk.Found_below _ _ _ _ fullPath _ entry).
    + inversion 1 as [|? ? fullPath' ? entry ? Hpath' Hentry Hp]; subst.
      rewrite Hpath in Hpath'. injection Hpath' as <-. by exists entry.
Qed.

(** X20.  When the walk returns, it has found exactly the regular files
    with extension [.vue] at or below the directory, each once for each
    place it has in the tree; directories named [*.vue] and entries that
    are neither file nor directory contribute nothing. *)
Theorem walk_finds_the_vue_files (dir : string) (entries : list Walk.Dirent)
    (paths : list string) :
  Walk.findVueFiles path_resolve path_extname dir (Ok entries) = Ok paths →
  length paths = list_sum (map (Walk.vueFileCount path_extname) entries)
  ∧ ∀ p, p ∈ paths
         ↔ ∃ entry, entry ∈ entries ∧ Walk.Found path_resolve path_extname dir entry p.
Proof.
  apply findVueFilesLoop_found, Forall_forall. intros entry _ dir' paths'.
  apply findVueFilesEntry_found.
Qed.

Lemma findVueFilesLoop_completes (dir : string) (entries : list Walk.Dirent) :
  Forall (fun entry => ∀ dir,
            completes (Walk.findVueFilesEntry path_resolve path_extname dir entry [])
            ↔ Walk.readableEntry entry = true)
         entries →
  completes (Walk.findVueFilesLoop path_resolve path_extname dir entries [])
  ↔ forallb Walk.readableEntry entries = true.
Proof.
  induction 1 as [|entry rest Hentry _ IH].
  - split; [done|by exists []].
  - rewrite findVueFilesLoop_cons. simpl forallb. rewrite andb_true_iff, <- IH, <- (Hentry dir).
    destruct (Walk.findVueFilesEntry _ _ dir entry []) as [found|e].
    + destruct (Walk.findVueFilesLoop _ _ dir rest []) as [found'|e'].
      * split; [intros _; split; by eexists|intros _; by eexists].
      * split; [by intros [? ?]|by intros [_ [? ?]]].
    + split; [by intros [? ?]|by intros [[? ?] _]].
Qed.

(** X21.  One directory that cannot be read fails the whole walk, and
    nothing else does: provided [path.resolve] accepts two strings, the
    walk returns exactly when the directory and every directory below it
    can be listed. *)
Theorem walk_fails_iff_unreadable (dir : string) (listing : result (list Walk.Dirent)) :
  (∀ d name, completes (path_resolve [VStr d; VStr name])) →
  completes (Walk.findVueFiles path_resolve path_extname dir listing)
  ↔ Walk.readable listing = true.
Proof.
  intros Hresolve. destruct listing as [entries|e]; [|split; [by intros [? ?]|done]].
  simpl. apply findVueFilesLoop_completes, Forall_forall. intros entry _.
  induction entry as [name|name|name e|name below IH] using Dirent_entries_ind;
    intros dir'.
  - simpl. destruct (Hresolve dir' name) as [fullPath ->].
    destruct (String.eqb _ _); split; try done; intros _; by eexists.
  - simpl. destruct (Hresolve dir' name) as [fullPath ->]. split; [done|by eexists].
  - simpl. destruct (Hresolve dir' name) as [fullPath ->]. split; [by intros [? ?]|done].
  - destruct (Hresolve dir' name) as [fullPath Hpath].
    rewrite (findVueFilesEntry_dir _ _ _ _ _ Hpath). simpl Walk.readableEntry.
    rewrite <- (findVueFilesLoop_completes fullPath _ IH).
    destruct (Walk.findVueFilesLoop _ _ fullPath below []);
      split; intros [? ?]; try done; by eexists.
Qed.

End WalkProofs.
End Run.

(** ** The properties at the sample environment *)

Lemma malformed_override_keeps_defaults_witness :
  loadConfig sampleConfigFile sampleJSON defaultConfig (worldWith "{docType: md")
  = (Ok defaultConfig,
     logging (worldWith "{docType: md")
       [Console LevelError [VStr "加载配置文件失败:"; VStr "Unexpected token"]]).
Proof.
  apply (proj1 (malformed_override_keeps_defaults sampleConfigFile sampleJSON
                  sampleResolve sampleInvalidArg sampleWalk sampleParse
                  (worldWith "{docType: md") "{docType: md" "Unexpected token"
                  eq_refl eq_refl)).
Defined.

Lemma invalid_file_is_skipped_witness :
  ∃ lines,
    writes lines = []
    ∧ processFiles sampleResolve sampleParse defaultConfig
        ["/project/src/components/Broken.vue"; "/project/src/components/Anonymous.vue"]
        [] emptyWorld
      = processFiles sampleResolve sampleParse defaultConfig
          ["/project/src/components/Anonymous.vue"] [] (logging emptyWorld lines).
Proof.
  destruct (invalid_file_is_skipped sampleResolve sampleParse defaultConfig
              "/project/src/components/Broken.vue"
              ["/project/src/components/Anonymous.vue"] [] emptyWorld)
    as (lines & _ & Hwrites & _ & _ & Hloop).
  - left. exists "Unexpected end of file". reflexivity.
  - exists lines. split; assumption.
Defined.


Lemma mdOverrideConfig_resolved :
  outcome (loadConfig sampleConfigFile sampleJSON defaultConfig) freshProject
  = Ok mdOverrideConfig.
Proof. vm_compute. reflexivity. Qed.



(** C4 at an override that sets only [customContent.md].  The resolved
    custom-content map is the override's map alone: its [md] is the
    override's value, its [html] is missing, where the built-in default is
    the empty string. *)
Theorem partial_customContent_override_loses_default :
  ∃ config,
    outcome (loadConfig sampleConfigFile sampleJSON defaultConfig)
            (worldWith partialOverrideText) = Ok config
    ∧ field config "customContent" = VObj (<["md" := VStr "docs/intro.md"]> ∅)
    ∧ getProp (field config "customContent") "md" = Ok (VStr "docs/intro.md")
    ∧ getProp (field config "customContent") "html" = Ok VUndefined
    ∧ getProp (field defaultConfig "customContent") "html" = Ok (VStr "").
Proof.
  destruct (override_customContent_replaces sampleConfigFile sampleJSON
              (worldWith partialOverrideText) partialOverrideText
              (<["customContent" := VObj (<["md" := VStr "docs/intro.md"]> ∅)]> ∅)
              (<["md" := VStr "docs/intro.md"]> ∅) eq_refl eq_refl eq_refl)
    as (config & Hload & Hfield).
  exists config. rewrite Hfield. repeat split; done.
Qed.

(** ** The further properties at the sample environment *)

Lemma escapeHtml_injective_witness :
  escapeHtml "a<b" = escapeHtml ("a" +:+ "<b") ∧ "a<b" = "a" +:+ "<b".
Proof. split; [reflexivity|apply escapeHtml_injective; reflexivity]. Defined.

Lemma escapeHtml_fixpoint_witness :
  (∀ c, c ∈ specials → has c "plain text" = false)
  ∧ escapeHtml "plain text" = "plain text".
Proof.
  assert (H : ∀ c, c ∈ specials → has c "plain text" = false).
  { intros c Hc. unfold specials in Hc.
    repeat (apply elem_of_cons in Hc as [->|Hc]; [reflexivity|]).
    by apply elem_of_nil in Hc. }
  split; [exact H|]. apply (proj2 (escapeHtml_fixpoint "plain text")). exact H.
Defined.

Lemma formatType_markdown_escapes_pipes_witness :
  Forall (fun name => has "|" name = false) (typeLeaves nestedUnion)
  ∧ formatType (Some nestedUnion) true = Ok "string \| number \| boolean"
  ∧ pipesEscaped false "`string \| number \| boolean`" = true.
Proof.
  assert (H : Forall (fun name => has "|" name = false) (typeLeaves nestedUnion))
    by (repeat constructor).
  split; [exact H|]. split; [reflexivity|].
  apply (formatType_markdown_escapes_pipes nestedUnion "string \| number \| boolean" H).
  reflexivity.
Defined.

Lemma getExposeType_first_type_tag_witness :
  getExposeType focusExpose = Some "() => void".
Proof.
  apply (proj1 (getExposeType_first_type_tag focusExpose)
           [{| tag_title := "since"; tag_description := Some "1.2" |}]
           {| tag_title := "type"; tag_description := Some "() => void" |}
           [{| tag_title := "type"; tag_description := Some "Function" |}]).
  - reflexivity.
  - constructor; [discriminate|constructor].
  - reflexivity.
Defined.

Lemma examples_numbered_from_one_witness :
  items (doc_examples cardDoc) !! 1 = Some secondExample
  ∧ ∃ out, generateComponentMarkdown cardDoc = Ok out
           ∧ contains ("### 示例 2" +:+ nl +:+ nl +:+ "```html" +:+ nl
                       +:+ "<Card><p>body</p></Card>" +:+ nl +:+ "```" +:+ nl +:+ nl) out.
Proof.
  split; [reflexivity|]. eexists. split; [reflexivity|].
  exact (proj1 (examples_numbered_from_one cardDoc 1 secondExample eq_refl) _ eq_refl).
Defined.

Lemma override_is_shallow_witness :
  field (resolvedConfig sampleConfigFile moreJSON (worldWith namedOverrideText)) "theme"
  = VStr "dark"
  ∧ field (resolvedConfig sampleConfigFile moreJSON (worldWith namedOverrideText)) "docName"
    = VStr "Kit"
  ∧ field (resolvedConfig sampleConfigFile moreJSON (worldWith namedOverrideText)) "outDir"
    = VStr "dist/component-doc".
Proof.
  destruct (override_is_shallow sampleConfigFile moreJSON (worldWith namedOverrideText)
              namedOverrideText namedOverride eq_refl eq_refl) as [Hset Hkeep].
  assert (Hother : ∀ key : string,
             key ≠ "customContent" → key ≠ "docType" → key ≠ "__proto__" →
             key ∉ ["customContent"; "docType"; "__proto__"]).
  { intros key H1 H2 H3 Hin.
    repeat (apply elem_of_cons in Hin as [Hin|Hin]; [done|]).
    by apply elem_of_nil in Hin. }
  split; [apply Hset; [by apply Hother|reflexivity]|].
  split; [apply Hset; [by apply Hother|reflexivity]|].
  rewrite Hkeep; [reflexivity|by eexists|discriminate|reflexivity].
Defined.

Lemma valid_docType_is_kept_witness :
  ∃ config,
    loadConfig sampleConfigFile sampleJSON defaultConfig (worldWith mdOverrideText)
    = (Ok config, worldWith mdOverrideText)
    ∧ field config "docType" = VStr "md".
Proof.
  apply (valid_docType_is_kept sampleConfigFile sampleJSON (worldWith mdOverrideText)
           mdOverrideText
           (<["docType" := VStr "md"]>
              (<["customContent" := VObj (<["md" := VStr "docs/intro.md"]> ∅)]> ∅))
           (VStr "md")); reflexivity.
Defined.

Lemma non_object_override_keeps_defaults_witness :
  loadConfig sampleConfigFile moreJSON defaultConfig (worldWith "null")
  = (Ok defaultConfig,
     logging (worldWith "null")
       [Console LevelError
          [VStr "加载配置文件失败:";
           VStr "Cannot read properties of null (reading 'customContent')"]])
  ∧ loadConfig sampleConfigFile moreJSON defaultConfig (worldWith "42")
    = (Ok defaultConfig, worldWith "42").
Proof.
  split.
  - apply (proj1 (non_object_override_keeps_defaults sampleConfigFile moreJSON
                    (worldWith "null") "null" eq_refl)).
    reflexivity.
  - apply (proj2 (non_object_override_keeps_defaults sampleConfigFile moreJSON
                    (worldWith "42") "42" eq_refl) (VNum "42")).
    + left. by exists "42".
    + reflexivity.
Defined.




Lemma pages_match_index_entries_witness :
  ∃ added,
    trace (after (processFiles sampleResolve sampleParse mdOverrideConfig sampleFiles [])
                 emptyWorld) = ([] ++ added)%list
    ∧ Forall2 (fun entry write =>
                 sampleResolve [field mdOverrideConfig "outDir";
                                VStr (entry_name entry +:+ pageExtension mdOverrideConfig)]
                 = Ok (fst write))
              (entriesOf sampleParse sampleFiles) (writes added).
Proof.
  eapply (pages_match_index_entries sampleResolve sampleParse mdOverrideConfig
            sampleFiles [] _ emptyWorld).
  reflexivity.
Defined.

Lemma rerun_reproduces_the_run_witness :
  outcome (main sampleConfigFile sampleJSON sampleResolve sampleInvalidArg
             sampleWalk sampleParse)
          (after (main sampleConfigFile sampleJSON sampleResolve sampleInvalidArg
                    sampleWalk sampleParse) freshProject)
  = outcome (main sampleConfigFile sampleJSON sampleResolve sampleInvalidArg
               sampleWalk sampleParse) freshProject
  ∧ files (after (main sampleConfigFile sampleJSON sampleResolve sampleInvalidArg
                    sampleWalk sampleParse)
             (after (main sampleConfigFile sampleJSON sampleResolve sampleInvalidArg
                       sampleWalk sampleParse) freshProject))
    = files (after (main sampleConfigFile sampleJSON sampleResolve sampleInvalidArg
                      sampleWalk sampleParse) freshProject).
Proof.
  destruct (rerun_reproduces_the_run sampleConfigFile sampleJSON sampleResolve
              sampleInvalidArg sampleWalk sampleParse freshProject)
    as (Hout & Hfiles & _).
  - vm_compute. reflexivity.
  - intros p Hp. vm_compute in Hp. injection Hp as <-. vm_compute. reflexivity.
  - split; [exact Hout|exact Hfiles].
Defined.

Lemma formatEventParams_markdown_escapes_pipes_witness :
  formatEventParams (Some changeParams) true
  = "value: `string \| number` - the new value<br>event: `-`"
  ∧ pipesEscaped false (formatEventParams (Some changeParams) true) = true.
Proof.
  split; [reflexivity|].
  apply (formatEventParams_markdown_escapes_pipes (Some changeParams)).
  repeat constructor.
Defined.

Lemma walk_finds_the_vue_files_witness :
  Walk.findVueFiles joinResolve sampleExtname "/project/src" (Ok sampleTree)
  = Ok ["/project/src/Button.vue"; "/project/src/legacy.vue/Card.vue"]
  ∧ list_sum (map (Walk.vueFileCount sampleExtname) sampleTree) = 2
  ∧ ∃ entry, entry ∈ sampleTree
             ∧ Walk.Found joinResolve sampleExtname "/project/src" entry
                 "/project/src/legacy.vue/Card.vue".
Proof.
  destruct (walk_finds_the_vue_files joinResolve sampleExtname "/project/src" sampleTree
              ["/project/src/Button.vue"; "/project/src/legacy.vue/Card.vue"] eq_refl)
    as [Hcount Hfound].
  split; [reflexivity|]. split; [symmetry; exact Hcount|].
  apply Hfound. right. by left.
Defined.

Lemma walk_fails_iff_unreadable_witness :
  (∀ d name, completes (joinResolve [VStr d; VStr name]))
  ∧ completes (Walk.findVueFiles joinResolve sampleExtname "/project/src" (Ok sampleTree))
  ∧ ¬ completes (Walk.findVueFiles joinResolve sampleExtname "/project/src"
                   (Ok lockedTree)).
Proof.
  assert (Hresolve : ∀ d name, completes (joinResolve [VStr d; VStr name]))
    by (intros d name; eexists; reflexivity).
  split; [exact Hresolve|]. split.
  - apply (proj2 (walk_fails_iff_unreadable joinResolve sampleExtname "/project/src"
                    (Ok sampleTree) Hresolve)).
    reflexivity.
  - intros Hwalk.
    apply (proj1 (walk_fails_iff_unreadable joinResolve sampleExtname "/project/src"
                    (Ok lockedTree) Hresolve)) in Hwalk.
    discriminate Hwalk.
Defined.

